(** * GEO observers chain: approval pool, round timer and claims codec

    A shallow embedding of the Go sources
      - core/chain/pool/pool.go              (Record, Pool)
      - core/timer (timer.go)                (Timer)
      - core/geo (claims.go)                 (Claim, Claims)
    together with the properties of the natural-language specification
    that concern them.

    Conventions.  Go integers of width w are values of [Z] with the
    wrap-around written out ([to_uint16], [to_uint64], [to_int64]).  A Go
    function returning [(v, err)] returns a [result]; one that may also
    panic returns an [outcome].  Go maps are stdpp [gmap]s, pointers to
    heap records are locations into an explicit heap. *)

From Stdlib Require Import ZArith List Lia Permutation Sorted.
From Stdlib Require String Ascii.
From stdpp Require Import base option list sorting gmap.

Local Open Scope Z_scope.

(** ** Errors (core/common/errors) and results *)

Inductive error : Set :=
| NotFound
| Collision
| NilParameter
| NilInternalDataStructure
| InvalidDataFormat
| MaxCountReached
| ErrEmptySequence
| ErrChannelTransferringFailed.

(** A Go pair [(value, err)] with [err != nil] carrying no value. *)
Inductive result (A : Type) : Type :=
| Ok (a : A)
| Err (e : error).
Arguments Ok {A} a.
Arguments Err {A} e.

(** A Go call that either returns or raises a run-time panic. *)
Inductive outcome (A : Type) : Type :=
| Return (a : A)
| Panic.
Arguments Return {A} a.
Arguments Panic {A}.

Definition obind {A B} (o : outcome A) (k : A -> outcome B) : outcome B :=
  match o with
  | Return a => k a
  | Panic => Panic
  end.

Notation "'call' x <- o ; k" := (obind o (fun x => k))
  (at level 10, x name, o at level 100, k at level 200,
   format "'[v' 'call'  x  <-  o ; '/' k ']'").

(** ** Machine integers *)

Definition to_uint16 (z : Z) : Z := z mod 2 ^ 16.
Definition to_uint32 (z : Z) : Z := z mod 2 ^ 32.
Definition to_uint64 (z : Z) : Z := z mod 2 ^ 64.
Definition to_int64 (z : Z) : Z := (z + 2 ^ 63) mod 2 ^ 64 - 2 ^ 63.

(** Conversions between int64 and uint64 keep the value modulo 2^64. *)
Lemma to_uint64_to_int64 (z : Z) : to_uint64 (to_int64 z) = to_uint64 z.
Proof.
  unfold to_uint64, to_int64.
  rewrite Zminus_mod_idemp_l.
  f_equal. lia.
Qed.



Lemma to_uint64_small (z : Z) : 0 <= z < 2 ^ 64 -> to_uint64 z = z.
Proof. intros Hz. unfold to_uint64. apply Z.mod_small. exact Hz. Qed.

Lemma to_uint16_small (z : Z) : 0 <= z < 2 ^ 16 -> to_uint16 z = z.
Proof. intros Hz. unfold to_uint16. apply Z.mod_small. exact Hz. Qed.

Lemma to_int64_small (z : Z) : - 2 ^ 63 <= z < 2 ^ 63 -> to_int64 z = z.
Proof. intros Hz. unfold to_int64. rewrite Z.mod_small; lia. Qed.

(** Sum of a list of integers, and the wrapped running total of a Go
    loop [total += x] over uint64. *)
Definition sum_list (l : list Z) : Z := foldr Z.add 0 l.

Lemma wrapped_total (l : list Z) (a : Z) :
  0 <= a < 2 ^ 64 ->
  fold_left (fun total x => to_uint64 (total + x)) l a = to_uint64 (a + sum_list l).
Proof.
  revert a. induction l as [|x l IH]; intros a Ha; simpl.
  - rewrite Z.add_0_r. symmetry. apply to_uint64_small, Ha.
  - rewrite IH by (unfold to_uint64; apply Z.mod_pos_bound; lia).
    unfold to_uint64. rewrite Zplus_mod_idemp_l. f_equal. lia.
Qed.

Lemma sum_list_app (a b : list Z) : sum_list (a ++ b) = sum_list a + sum_list b.
Proof. unfold sum_list. induction a as [|x a IH]; simpl; lia. Qed.

(** A byte is an 8-bit value of [Z]; byte strings are lists of them. *)
Abbreviation byte := Z (only parsing).
Abbreviation bytes := (list Z) (only parsing).

(** ** Configuration constants *)

(** Modelled from the spec: [common.ObserversMaxCount] is declared in a
    package that is not part of the sources at hand; the specification
    fixes it to 1024. *)
Definition ObserversMaxCount : Z := 1024.

(** [math.MaxUint16], the pre-synchronisation frame index. *)
Definition kInitialTimeFrameIndex : Z := 65535.

(** ** time.Time and time.Duration

    A [Time] is the number of seconds since January 1, year 1 (UTC) and a
    nanosecond offset within that second; the zero [Time] is [zeroTime].
    Zone offsets are whole minutes and do not change [Second]. *)

Record Time : Set := mkTime { sec : Z; nsec : Z }.

Definition zeroTime : Time := mkTime 0 0.

Definition minDuration : Z := - 2 ^ 63.
Definition maxDuration : Z := 2 ^ 63 - 1.

(** [t.Second()]: the second offset within the minute, in [0, 59]. *)
Definition Second (t : Time) : Z := sec t mod 60.

(** [t.Sub(u)]: the duration t-u in nanoseconds, saturated to the
    range of [Duration] (an int64). *)
Definition Sub (t u : Time) : Z :=
  let d := (sec t - sec u) * 1000000000 + (nsec t - nsec u) in
  if d <? minDuration then minDuration
  else if maxDuration <? d then maxDuration
  else d.

(** ** The approval pool (core/chain/pool/pool.go) *)

Module pool.

Section Pool.

(** The [instance] interface: anything that marshals to bytes.  The
    content hash [hash.NewSHA256Container] comes from a package outside
    the sources at hand and is a parameter. *)
Context {instance : Type}.
Variable MarshalBinary : instance -> result bytes.

Context {SHA256Container : Type}.
Context `{Countable SHA256Container}.
Variable NewSHA256Container : bytes -> SHA256Container.

(** [settings.KObserversMaxCount] (the array length),
    [settings.ObserversMaxCount] and [settings.ObserversConsensusCount]. *)
Variable KObserversMaxCount : nat.
Variable settings_ObserversMaxCount : Z.
Variable settings_ObserversConsensusCount : Z.

Record Record_ : Type := mkRecord {
  Instance : instance;
  Approves : list bool;
  LastSyncAttempt : Time
}.

(** The body of the [for _, vote := range r.Approves] loop, with the two
    counters threaded through. *)
Fixpoint votes_loop (votes : list bool)
    (positiveVotesPresent negativeVotesPresent : Z) : bool :=
  match votes with
  | [] => false
  | vote :: rest =>
      if vote then
        let positiveVotesPresent := positiveVotesPresent + 1 in
        if positiveVotesPresent >=? settings_ObserversConsensusCount
        then true
        else votes_loop rest positiveVotesPresent negativeVotesPresent
      else
        let negativeVotesPresent := negativeVotesPresent + 1 in
        if negativeVotesPresent >=?
             settings_ObserversMaxCount - settings_ObserversConsensusCount
        then false
        else votes_loop rest positiveVotesPresent negativeVotesPresent
  end.

Definition IsMajorityApprovesCollected (r : Record_) : bool :=
  votes_loop (Approves r) 0 0.

(** Number of [true] entries of an approval vector. *)
Definition positives (votes : list bool) : Z :=
  Z.of_nat (length (filter (fun v => v = true) votes)).

(** [*Record] values are locations; the pool's map holds pointers. *)
Definition loc := positive.

Record Pool : Type := mkPool {
  index : gmap SHA256Container loc;
  heap : gmap loc Record_
}.

Definition NewPool : Pool := mkPool ∅ ∅.

Definition ByHash (pool : Pool) (hash : SHA256Container)
    : option loc * option error :=
  match index pool !! hash with
  | None => (None, Some NotFound)
  | Some record => (Some record, None)
  end.

(** [&Record{Instance: instance}]: every other field has its zero value. *)
Definition freshRecord (i : instance) : Record_ :=
  mkRecord i (replicate KObserversMaxCount false) zeroTime.

Definition error_eqb (a b : option error) : bool :=
  match a, b with
  | None, None => true
  | Some x, Some y =>
      match x, y with
      | NotFound, NotFound | Collision, Collision
      | NilParameter, NilParameter
      | NilInternalDataStructure, NilInternalDataStructure
      | InvalidDataFormat, InvalidDataFormat
      | MaxCountReached, MaxCountReached
      | ErrEmptySequence, ErrEmptySequence
      | ErrChannelTransferringFailed, ErrChannelTransferringFailed => true
      | _, _ => false
      end
  | _, _ => false
  end.

(** [Pool.Add]: the new pool state, the returned [record] and [err]. *)
Definition Add (pool : Pool) (i : instance)
    : Pool * option loc * option error :=
  match MarshalBinary i with
  | Err e => (pool, None, Some e)
  | Ok data =>
      let key := NewSHA256Container data in
      let '(_, err) := ByHash pool key in
      if negb (error_eqb err (Some NotFound)) then
        (pool, None, Some Collision)
      else
        let record := fresh (dom (heap pool)) in
        (mkPool (<[key := record]> (index pool))
                (<[record := freshRecord i]> (heap pool)),
         Some record, None)
  end.

Definition Remove (pool : Pool) (hash : SHA256Container) : Pool :=
  mkPool (delete hash (index pool)) (heap pool).

(** Operations a client may apply to a pool. *)
Inductive op : Type :=
| OpAdd (i : instance)
| OpRemove (hash : SHA256Container).

Definition apply_op (pool : Pool) (o : op) : Pool :=
  match o with
  | OpAdd i => (Add pool i).1.1
  | OpRemove h => Remove pool h
  end.

Definition run_ops (ops : list op) : Pool := fold_left apply_op ops NewPool.

(** The record a key points to. *)
Definition record_at (pool : Pool) (key : SHA256Container) : option Record_ :=
  index pool !! key ≫= fun l => heap pool !! l.

(** Hash addressing: each key is the digest of the binary form of the
    instance of the record stored under it. *)
Definition hash_addressed (pool : Pool) : Prop :=
  forall key l, index pool !! key = Some l ->
    exists r data, heap pool !! l = Some r /\
                   MarshalBinary (Instance r) = Ok data /\
                   NewSHA256Container data = key.

(** *** Properties of the pool *)

Lemma error_eqb_NotFound (e : option error) :
  error_eqb e (Some NotFound) = true <-> e = Some NotFound.
Proof.
  split.
  - destruct e as [[]|]; simpl; intros Heq; congruence.
  - intros ->. reflexivity.
Qed.

Lemma ByHash_present (pool : Pool) (key : SHA256Container) (l : loc) :
  index pool !! key = Some l -> ByHash pool key = (Some l, None).
Proof. unfold ByHash. intros ->. reflexivity. Qed.

Lemma ByHash_absent (pool : Pool) (key : SHA256Container) :
  index pool !! key = None -> ByHash pool key = (None, Some NotFound).
Proof. unfold ByHash. intros ->. reflexivity. Qed.

(** The three ways [Add] can end. *)
Lemma Add_marshal_error (pool : Pool) (i : instance) (e : error) :
  MarshalBinary i = Err e -> Add pool i = (pool, None, Some e).
Proof. unfold Add. intros ->. reflexivity. Qed.

Lemma Add_collision (pool : Pool) (i : instance) (data : bytes) (l : loc) :
  MarshalBinary i = Ok data ->
  index pool !! NewSHA256Container data = Some l ->
  Add pool i = (pool, None, Some Collision).
Proof.
  intros Hm Hl. unfold Add. rewrite Hm.
  rewrite (ByHash_present _ _ _ Hl). reflexivity.
Qed.

Lemma Add_fresh (pool : Pool) (i : instance) (data : bytes) :
  MarshalBinary i = Ok data ->
  index pool !! NewSHA256Container data = None ->
  Add pool i =
    (mkPool (<[NewSHA256Container data := fresh (dom (heap pool))]> (index pool))
            (<[fresh (dom (heap pool)) := freshRecord i]> (heap pool)),
     Some (fresh (dom (heap pool))), None).
Proof.
  intros Hm Hl. unfold Add. rewrite Hm.
  rewrite (ByHash_absent _ _ Hl). reflexivity.
Qed.

Lemma fresh_loc_unallocated (pool : Pool) :
  heap pool !! fresh (dom (heap pool)) = None.
Proof. apply not_elem_of_dom. apply is_fresh. Qed.

Lemma hash_addressed_NewPool : hash_addressed NewPool.
Proof. intros key l Hl. simpl in Hl. rewrite lookup_empty in Hl. discriminate. Qed.

Lemma hash_addressed_Remove (pool : Pool) (hash : SHA256Container) :
  hash_addressed pool -> hash_addressed (Remove pool hash).
Proof.
  intros Hinv key l Hl. simpl in Hl.
  apply lookup_delete_Some in Hl as [_ Hl].
  exact (Hinv key l Hl).
Qed.

Lemma hash_addressed_Add (pool : Pool) (i : instance) :
  hash_addressed pool -> hash_addressed (Add pool i).1.1.
Proof.
  intros Hinv.
  destruct (MarshalBinary i) as [data|e] eqn:Hm.
  2:{ rewrite (Add_marshal_error _ _ _ Hm). exact Hinv. }
  destruct (index pool !! NewSHA256Container data) as [l0|] eqn:Hl0.
  { rewrite (Add_collision _ _ _ _ Hm Hl0). exact Hinv. }
  rewrite (Add_fresh _ _ _ Hm Hl0). simpl.
  intros key l Hl. simpl in *.
  destruct (decide (NewSHA256Container data = key)) as [<-|Hne].
  - rewrite lookup_insert_eq in Hl. injection Hl as <-.
    exists (freshRecord i), data. rewrite lookup_insert_eq. auto.
  - rewrite lookup_insert_ne in Hl by exact Hne.
    destruct (Hinv key l Hl) as (r & d & Hr & Hd & Hk).
    exists r, d. split; [|auto].
    rewrite lookup_insert_ne; [exact Hr|].
    intros <-. rewrite fresh_loc_unallocated in Hr. discriminate.
Qed.

Lemma hash_addressed_fold (ops : list op) (pool : Pool) :
  hash_addressed pool -> hash_addressed (fold_left apply_op ops pool).
Proof.
  revert pool. induction ops as [|o ops IH]; intros pool Hinv; simpl.
  - exact Hinv.
  - apply IH. destruct o as [i|h]; simpl.
    + apply hash_addressed_Add, Hinv.
    + apply hash_addressed_Remove, Hinv.
Qed.

(** The rejection branch of the vote scan: a run of [m] negative votes
    that reaches the threshold ends the scan with [false], whatever
    follows. *)
Lemma votes_loop_negatives_first (m : nat) (rest : list bool) (p ng : Z) :
  (0 < m)%nat ->
  ng + Z.of_nat m >= settings_ObserversMaxCount - settings_ObserversConsensusCount ->
  votes_loop (replicate m false ++ rest) p ng = false.
Proof.
  revert ng. induction m as [|m IH]; intros ng Hm Hthr; [lia|].
  simpl.
  destruct (ng + 1 >=? settings_ObserversMaxCount - settings_ObserversConsensusCount)
    eqn:Hcmp; [reflexivity|].
  rewrite Z.geb_leb in Hcmp. apply Z.leb_gt in Hcmp.
  apply IH; lia.
Qed.

Lemma positives_app (a b : list bool) :
  positives (a ++ b) = positives a + positives b.
Proof. unfold positives. rewrite filter_app, length_app. lia. Qed.

Lemma positives_replicate_false (m : nat) : positives (replicate m false) = 0.
Proof.
  unfold positives. induction m as [|m IH]; [reflexivity|].
  simpl. rewrite filter_cons_False by discriminate. exact IH.
Qed.

Lemma positives_replicate_true (m : nat) :
  positives (replicate m true) = Z.of_nat m.
Proof.
  unfold positives. induction m as [|m IH]; [reflexivity|].
  simpl replicate. rewrite filter_cons_True by reflexivity.
  simpl length. lia.
Qed.

Lemma positives_bounds (votes : list bool) :
  0 <= positives votes <= Z.of_nat (length votes).
Proof.
  unfold positives. pose proof (length_filter (fun v => v = true) votes). lia.
Qed.

(** The approval branch: once the positives in the remaining votes bring
    the counter to the consensus count before the negatives reach their
    threshold, the scan answers [true]. *)
Lemma votes_loop_approved (votes : list bool) (p ng : Z) :
  p < settings_ObserversConsensusCount ->
  settings_ObserversConsensusCount <= p + positives votes ->
  ng + (Z.of_nat (length votes) - positives votes)
    < settings_ObserversMaxCount - settings_ObserversConsensusCount ->
  votes_loop votes p ng = true.
Proof.
  revert p ng. induction votes as [|v votes IH]; intros p ng Hp Hpos Hneg.
  - unfold positives in Hpos. simpl in Hpos. lia.
  - change (v :: votes) with ([v] ++ votes) in Hpos, Hneg.
    rewrite positives_app in Hpos, Hneg. rewrite length_app in Hneg.
    destruct v; simpl.
    + change (positives [true]) with 1 in Hpos, Hneg. simpl length in Hneg.
      destruct (p + 1 >=? settings_ObserversConsensusCount) eqn:Hcmp; [reflexivity|].
      rewrite Z.geb_leb in Hcmp. apply Z.leb_gt in Hcmp.
      apply IH; lia.
    + change (positives [false]) with 0 in Hpos, Hneg. simpl length in Hneg.
      destruct (ng + 1 >=? settings_ObserversMaxCount - settings_ObserversConsensusCount)
        eqn:Hcmp.
      * rewrite Z.geb_leb in Hcmp. apply Z.leb_le in Hcmp.
        pose proof (positives_bounds votes). lia.
      * apply IH; lia.
Qed.

(** C1 (as the code behaves).  With [settings.ObserversMaxCount] slots and
    a consensus count strictly between 0 and that number, the approval
    vector made of [MaxCount - ConsensusCount] negative entries followed by
    [ConsensusCount] positive ones holds at least [ConsensusCount] entries
    equal to [true], and yet [IsMajorityApprovesCollected] answers [false]:
    the negative counter reaches [MaxCount - ConsensusCount] first and the
    scan returns before it sees the positives. *)
Theorem IsMajorityApprovesCollected_rejects_collected_majority
    (i : instance) (t : Time) :
  0 < settings_ObserversConsensusCount < settings_ObserversMaxCount ->
  let r := mkRecord i
             (replicate (Z.to_nat (settings_ObserversMaxCount
                                   - settings_ObserversConsensusCount)) false
              ++ replicate (Z.to_nat settings_ObserversConsensusCount) true) t in
  Z.of_nat (length (Approves r)) = settings_ObserversMaxCount /\
  settings_ObserversConsensusCount <= positives (Approves r) /\
  IsMajorityApprovesCollected r = false.
Proof.
  intros Hk r. subst r. simpl Approves. repeat split.
  - rewrite length_app, !length_replicate. lia.
  - rewrite positives_app, positives_replicate_false, positives_replicate_true. lia.
  - unfold IsMajorityApprovesCollected. simpl Approves.
    apply votes_loop_negatives_first; lia.
Qed.

(** C2.  After a first successful [Add] of an instance, an [Add] of an
    instance with the same marshalled bytes returns no record and the
    [Collision] error, and leaves the pool (its index and every record it
    points to) exactly as it was; the record stored under the key is still
    the one created by the first call.  The same holds when records were
    updated through their pointers in between (any heap [h']). *)
Theorem Add_twice_is_Collision
    (pool pool1 : Pool) (i1 i2 : instance) (data : bytes) (r1 : loc) :
  MarshalBinary i1 = Ok data ->
  MarshalBinary i2 = Ok data ->
  Add pool i1 = (pool1, Some r1, None) ->
  Add pool1 i2 = (pool1, None, Some Collision) /\
  record_at pool1 (NewSHA256Container data) = Some (freshRecord i1) /\
  (forall h', Add (mkPool (index pool1) h') i2
              = (mkPool (index pool1) h', None, Some Collision)).
Proof.
  intros Hm1 Hm2 Hadd.
  destruct (index pool !! NewSHA256Container data) as [l0|] eqn:Hl0.
  { rewrite (Add_collision _ _ _ _ Hm1 Hl0) in Hadd. discriminate. }
  rewrite (Add_fresh _ _ _ Hm1 Hl0) in Hadd.
  injection Hadd as <- <-.
  assert (Hkey : forall h',
    index (mkPool (<[NewSHA256Container data := fresh (dom (heap pool))]> (index pool)) h')
      !! NewSHA256Container data = Some (fresh (dom (heap pool)))).
  { intros h'. simpl. apply lookup_insert_eq. }
  split; [|split].
  - exact (Add_collision _ _ _ _ Hm2 (Hkey _)).
  - unfold record_at. rewrite Hkey. simpl. apply lookup_insert_eq.
  - intros h'. exact (Add_collision _ _ _ _ Hm2 (Hkey h')).
Qed.

(** C7.  In every pool obtained from [NewPool] by a sequence of [Add] and
    [Remove] calls, a key of the index points to an allocated record, and
    the key is the SHA-256 container of the marshalled instance of that
    record. *)
Theorem pool_keys_are_digests
    (ops : list op) (key : SHA256Container) (l : loc) :
  index (run_ops ops) !! key = Some l ->
  exists r data,
    heap (run_ops ops) !! l = Some r /\
    MarshalBinary (Instance r) = Ok data /\
    NewSHA256Container data = key.
Proof.
  intros Hl.
  exact (hash_addressed_fold ops NewPool hash_addressed_NewPool key l Hl).
Qed.

(** C10.  Whenever [Add] returns an error, be it the marshalling error of
    the instance or [Collision], the returned record is nil and the pool
    is the one it was called on. *)
Theorem Add_error_returns_nil_record
    (pool pool' : Pool) (i : instance) (record : option loc) (e : error) :
  Add pool i = (pool', record, Some e) ->
  record = None /\ pool' = pool.
Proof.
  intros Hadd.
  destruct (MarshalBinary i) as [data|e0] eqn:Hm.
  2:{ rewrite (Add_marshal_error _ _ _ Hm) in Hadd.
      injection Hadd as <- <- _. auto. }
  destruct (index pool !! NewSHA256Container data) as [l0|] eqn:Hl0.
  - rewrite (Add_collision _ _ _ _ Hm Hl0) in Hadd.
    injection Hadd as <- <- _. auto.
  - rewrite (Add_fresh _ _ _ Hm Hl0) in Hadd. discriminate.
Qed.

(** *** Further properties of the pool *)

Lemma votes_loop_sound (votes : list bool) (p ng : Z) :
  votes_loop votes p ng = true ->
  settings_ObserversConsensusCount <= p + positives votes.
Proof.
  revert p ng. induction votes as [|v votes IH]; intros p ng Hrun.
  - discriminate.
  - change (v :: votes) with ([v] ++ votes). rewrite positives_app.
    destruct v; simpl in Hrun.
    + change (positives [true]) with 1.
      pose proof (positives_bounds votes) as Hb.
      destruct (p + 1 >=? settings_ObserversConsensusCount) eqn:Hcmp.
      * rewrite Z.geb_leb in Hcmp. apply Z.leb_le in Hcmp. lia.
      * specialize (IH _ _ Hrun). lia.
    + change (positives [false]) with 0.
      destruct (ng + 1 >=? settings_ObserversMaxCount
                            - settings_ObserversConsensusCount);
        [discriminate|].
      specialize (IH _ _ Hrun). lia.
Qed.

(** X1.  After a successful [Add], [ByHash] on the digest of the
    marshalled instance finds the record that [Add] returned; that record
    was not allocated before, holds the instance, no approval and the zero
    time of last synchronisation. *)
Theorem Add_then_ByHash
    (pool pool1 : Pool) (i : instance) (data : list Z) (r : loc) :
  MarshalBinary i = Ok data ->
  Add pool i = (pool1, Some r, None) ->
  ByHash pool1 (NewSHA256Container data) = (Some r, None) /\
  heap pool !! r = None /\
  heap pool1 !! r
  = Some (mkRecord i (replicate KObserversMaxCount false) zeroTime).
Proof.
  intros Hm Hadd.
  destruct (index pool !! NewSHA256Container data) as [l0|] eqn:Hl0.
  { rewrite (Add_collision _ _ _ _ Hm Hl0) in Hadd. discriminate. }
  rewrite (Add_fresh _ _ _ Hm Hl0) in Hadd.
  injection Hadd as <- <-. split; [|split].
  - apply ByHash_present. simpl. apply lookup_insert_eq.
  - apply fresh_loc_unallocated.
  - simpl. apply lookup_insert_eq.
Qed.

(** X2.  After [Remove] of a key, [ByHash] on that key answers
    [NotFound], and on every other key it answers as before. *)
Theorem Remove_then_ByHash (pool : Pool) (hash : SHA256Container) :
  ByHash (Remove pool hash) hash = (None, Some NotFound) /\
  forall other, other <> hash ->
    ByHash (Remove pool hash) other = ByHash pool other.
Proof.
  split.
  - apply ByHash_absent. simpl. apply lookup_delete_eq.
  - intros other Hne. unfold ByHash. simpl.
    rewrite lookup_delete_ne by congruence. reflexivity.
Qed.

(** X3.  [Remove] is idempotent, and removing a key that is not in the
    pool leaves the pool as it is. *)
Theorem Remove_idempotent (pool : Pool) (hash : SHA256Container) :
  Remove (Remove pool hash) hash = Remove pool hash /\
  (ByHash pool hash = (None, Some NotFound) -> Remove pool hash = pool).
Proof.
  split.
  - unfold Remove. simpl. f_equal.
    apply delete_id, lookup_delete_eq.
  - unfold ByHash, Remove. destruct (index pool !! hash) eqn:Hl; [discriminate|].
    intros _. destruct pool as [idx hp]. simpl in *. f_equal.
    apply delete_id, Hl.
Qed.

(** X4.  Once its key is removed, an instance can be added again: the
    second [Add] succeeds with a record of its own, different from the
    first one, whose approvals start from scratch; the first record is
    no longer reachable through the index. *)
Theorem Add_after_Remove
    (pool pool1 : Pool) (i : instance) (data : list Z) (r : loc) :
  MarshalBinary i = Ok data ->
  Add pool i = (pool1, Some r, None) ->
  exists pool2 r',
    Add (Remove pool1 (NewSHA256Container data)) i = (pool2, Some r', None) /\
    r' <> r /\
    ByHash pool2 (NewSHA256Container data) = (Some r', None) /\
    heap pool2 !! r'
    = Some (mkRecord i (replicate KObserversMaxCount false) zeroTime).
Proof.
  intros Hm Hadd.
  destruct (index pool !! NewSHA256Container data) as [l0|] eqn:Hl0.
  { rewrite (Add_collision _ _ _ _ Hm Hl0) in Hadd. discriminate. }
  rewrite (Add_fresh _ _ _ Hm Hl0) in Hadd.
  injection Hadd as <- <-.
  set (p1 := mkPool (<[NewSHA256Container data := fresh (dom (heap pool))]> (index pool))
                    (<[fresh (dom (heap pool)) := freshRecord i]> (heap pool))).
  assert (Habs : index (Remove p1 (NewSHA256Container data))
                   !! NewSHA256Container data = None).
  { simpl. apply lookup_delete_eq. }
  eexists _, _. rewrite (Add_fresh _ _ _ Hm Habs).
  split; [reflexivity|]. split; [|split].
  - intros Heq.
    pose proof (fresh_loc_unallocated (Remove p1 (NewSHA256Container data))) as Hf.
    rewrite Heq in Hf. simpl in Hf. rewrite lookup_insert_eq in Hf. discriminate.
  - apply ByHash_present. simpl. apply lookup_insert_eq.
  - simpl. apply lookup_insert_eq.
Qed.

(** X5.  [Add] never touches what is already in the pool: whatever it
    returns, every key keeps the record it pointed to, and every
    allocated record keeps its contents. *)
Theorem Add_preserves_entries (pool : Pool) (i : instance) :
  (forall key l, index pool !! key = Some l ->
                 index (Add pool i).1.1 !! key = Some l) /\
  (forall l rec, heap pool !! l = Some rec ->
                 heap (Add pool i).1.1 !! l = Some rec).
Proof.
  destruct (MarshalBinary i) as [data|e] eqn:Hm.
  2:{ rewrite (Add_marshal_error _ _ _ Hm). auto. }
  destruct (index pool !! NewSHA256Container data) as [l0|] eqn:Hl0.
  { rewrite (Add_collision _ _ _ _ Hm Hl0). auto. }
  rewrite (Add_fresh _ _ _ Hm Hl0). simpl. split.
  - intros key l Hl. rewrite lookup_insert_ne; [exact Hl|].
    intros <-. congruence.
  - intros l rec Hl. rewrite lookup_insert_ne; [exact Hl|].
    intros <-. rewrite fresh_loc_unallocated in Hl. discriminate.
Qed.

(** X6.  [IsMajorityApprovesCollected] never answers [true] for a record
    with fewer than [ObserversConsensusCount] approvals. *)
Theorem IsMajorityApprovesCollected_sound (r : Record_) :
  IsMajorityApprovesCollected r = true ->
  settings_ObserversConsensusCount <= positives (Approves r).
Proof.
  unfold IsMajorityApprovesCollected. intros Hrun.
  pose proof (votes_loop_sound _ _ _ Hrun). lia.
Qed.

(** X7.  A record with at least [ObserversConsensusCount] approvals is
    reported approved as long as fewer than
    [ObserversMaxCount - ObserversConsensusCount] of its slots are
    [false]. *)
Theorem IsMajorityApprovesCollected_complete (r : Record_) :
  0 < settings_ObserversConsensusCount ->
  settings_ObserversConsensusCount <= positives (Approves r) ->
  Z.of_nat (length (Approves r)) - positives (Approves r)
    < settings_ObserversMaxCount - settings_ObserversConsensusCount ->
  IsMajorityApprovesCollected r = true.
Proof.
  intros Hk Hpos Hneg. unfold IsMajorityApprovesCollected.
  apply votes_loop_approved; lia.
Qed.

(** No key points outside the heap, and no two keys share a record. *)
Definition records_separate (pool : Pool) : Prop :=
  (forall key l, index pool !! key = Some l -> is_Some (heap pool !! l)) /\
  (forall k1 k2 l, index pool !! k1 = Some l -> index pool !! k2 = Some l ->
                   k1 = k2).

Lemma records_separate_apply_op (pool : Pool) (o : op) :
  records_separate pool -> records_separate (apply_op pool o).
Proof.
  intros [Hdom Hinj]. destruct o as [i|h]; simpl.
  - destruct (MarshalBinary i) as [data|e] eqn:Hm.
    2:{ rewrite (Add_marshal_error _ _ _ Hm). split; assumption. }
    destruct (index pool !! NewSHA256Container data) as [l0|] eqn:Hl0.
    { rewrite (Add_collision _ _ _ _ Hm Hl0). split; assumption. }
    rewrite (Add_fresh _ _ _ Hm Hl0). unfold records_separate. simpl.
    assert (Hfresh : forall key, index pool !! key
                                 <> Some (fresh (dom (heap pool)))).
    { intros key Hl. destruct (Hdom _ _ Hl) as [rec Hrec].
      rewrite fresh_loc_unallocated in Hrec. discriminate. }
    split.
    + intros key l Hl.
      destruct (decide (NewSHA256Container data = key)) as [<-|Hne].
      * rewrite lookup_insert_eq in Hl. injection Hl as <-.
        rewrite lookup_insert_eq. eauto.
      * rewrite lookup_insert_ne in Hl by exact Hne.
        destruct (Hdom _ _ Hl) as [rec Hrec].
        rewrite lookup_insert_ne; [eauto|].
        intros <-. exact (Hfresh _ Hl).
    + intros k1 k2 l H1 H2.
      destruct (decide (NewSHA256Container data = k1)) as [<-|Hne1];
        destruct (decide (NewSHA256Container data = k2)) as [<-|Hne2];
        try reflexivity.
      * rewrite lookup_insert_eq in H1. injection H1 as <-.
        rewrite lookup_insert_ne in H2 by exact Hne2.
        destruct (Hfresh _ H2).
      * rewrite lookup_insert_eq in H2. injection H2 as <-.
        rewrite lookup_insert_ne in H1 by exact Hne1.
        destruct (Hfresh _ H1).
      * rewrite lookup_insert_ne in H1 by exact Hne1.
        rewrite lookup_insert_ne in H2 by exact Hne2.
        exact (Hinj _ _ _ H1 H2).
  - split; simpl.
    + intros key l Hl. apply lookup_delete_Some in Hl as [_ Hl].
      exact (Hdom _ _ Hl).
    + intros k1 k2 l H1 H2.
      apply lookup_delete_Some in H1 as [_ H1].
      apply lookup_delete_Some in H2 as [_ H2].
      exact (Hinj _ _ _ H1 H2).
Qed.

Lemma records_separate_fold (ops : list op) (pool : Pool) :
  records_separate pool -> records_separate (fold_left apply_op ops pool).
Proof.
  revert pool. induction ops as [|o ops IH]; intros pool Hinv; simpl.
  - exact Hinv.
  - apply IH, records_separate_apply_op, Hinv.
Qed.

(** X8.  In every pool obtained from [NewPool] by [Add] and [Remove]
    calls, two keys that point to the same record are the same key:
    approvals recorded for one instance never show under another. *)
Theorem pool_records_not_shared
    (ops : list op) (k1 k2 : SHA256Container) (l : loc) :
  index (run_ops ops) !! k1 = Some l ->
  index (run_ops ops) !! k2 = Some l ->
  k1 = k2.
Proof.
  assert (Hinit : records_separate NewPool).
  { split; intros ? ? ?; simpl; rewrite lookup_empty; discriminate. }
  destruct (records_separate_fold ops NewPool Hinit) as [_ Hinj].
  apply Hinj.
Qed.

End Pool.

(** *** A concrete pool

    Instances that are their own binary form (the empty one fails to
    marshal), with the bytes themselves standing for the digest. *)

Definition raw_MarshalBinary (i : bytes) : result bytes :=
  match i with
  | [] => Err NilInternalDataStructure
  | _ => Ok i
  end.

Definition raw_digest (data : bytes) : bytes := data.

Definition raw_Add := Add raw_MarshalBinary raw_digest 4.

Lemma IsMajorityApprovesCollected_rejects_collected_majority_witness :
  Z.of_nat (length (replicate 341 false ++ replicate 683 true)) = 1024 /\
  683 <= positives (replicate 341 false ++ replicate 683 true) /\
  IsMajorityApprovesCollected 1024 683
    (mkRecord [1] (replicate 341 false ++ replicate 683 true) zeroTime) = false.
Proof.
  apply (IsMajorityApprovesCollected_rejects_collected_majority
           1024 683 [1] zeroTime). lia.
Defined.

Lemma Add_twice_is_Collision_witness :
  raw_Add (raw_Add NewPool [7; 7]).1.1 [7; 7]
  = ((raw_Add NewPool [7; 7]).1.1, None, Some Collision).
Proof.
  apply (Add_twice_is_Collision raw_MarshalBinary raw_digest 4
           NewPool (raw_Add NewPool [7; 7]).1.1 [7; 7] [7; 7] [7; 7] 1%positive);
    reflexivity.
Defined.

Lemma pool_keys_are_digests_witness :
  exists r data,
    heap (run_ops raw_MarshalBinary raw_digest 4 [OpAdd [7; 7]; OpAdd [8]; OpRemove [8]])
      !! 1%positive = Some r /\
    raw_MarshalBinary (Instance r) = Ok data /\
    raw_digest data = [7; 7].
Proof.
  apply (pool_keys_are_digests raw_MarshalBinary raw_digest 4
           [OpAdd [7; 7]; OpAdd [8]; OpRemove [8]] [7; 7] 1%positive).
  reflexivity.
Defined.

Lemma Add_error_returns_nil_record_witness :
  (None : option loc) = None /\
  (raw_Add NewPool [7; 7]).1.1 = (raw_Add NewPool [7; 7]).1.1.
Proof.
  apply (Add_error_returns_nil_record raw_MarshalBinary raw_digest 4
           (raw_Add NewPool [7; 7]).1.1 (raw_Add NewPool [7; 7]).1.1
           [7; 7] None Collision).
  reflexivity.
Defined.

Lemma Add_then_ByHash_witness :
  ByHash (raw_Add NewPool [7; 7]).1.1 (raw_digest [7; 7]) = (Some 1%positive, None) /\
  heap (NewPool (instance := list Z) (SHA256Container := list Z)) !! 1%positive = None /\
  heap (raw_Add NewPool [7; 7]).1.1 !! 1%positive
  = Some (mkRecord [7; 7] (replicate 4 false) zeroTime).
Proof.
  apply (Add_then_ByHash raw_MarshalBinary raw_digest 4
           NewPool (raw_Add NewPool [7; 7]).1.1 [7; 7] [7; 7] 1%positive);
    reflexivity.
Defined.

Lemma Add_after_Remove_witness :
  exists pool2 r',
    raw_Add (Remove (raw_Add NewPool [7; 7]).1.1 (raw_digest [7; 7])) [7; 7]
    = (pool2, Some r', None) /\
    r' <> 1%positive /\
    ByHash pool2 (raw_digest [7; 7]) = (Some r', None) /\
    heap pool2 !! r' = Some (mkRecord [7; 7] (replicate 4 false) zeroTime).
Proof.
  apply (Add_after_Remove raw_MarshalBinary raw_digest 4
           NewPool (raw_Add NewPool [7; 7]).1.1 [7; 7] [7; 7] 1%positive);
    reflexivity.
Defined.

Lemma IsMajorityApprovesCollected_sound_witness :
  3 <= positives [true; false; true; true; false].
Proof.
  apply (IsMajorityApprovesCollected_sound 5 3
           (mkRecord [7] [true; false; true; true; false] zeroTime)).
  reflexivity.
Defined.

Lemma IsMajorityApprovesCollected_complete_witness :
  IsMajorityApprovesCollected 5 3
    (mkRecord [7] [false; true; true; true; true] zeroTime) = true.
Proof.
  apply (IsMajorityApprovesCollected_complete 5 3
           (mkRecord [7] [false; true; true; true; true] zeroTime)).
  - lia.
  - vm_compute. discriminate.
  - vm_compute. reflexivity.
Defined.

Lemma pool_records_not_shared_witness : [7; 7] = [7; 7].
Proof.
  apply (pool_records_not_shared raw_MarshalBinary raw_digest 4
           [OpAdd [7; 7]; OpAdd [8]] [7; 7] [7; 7] 1%positive);
    reflexivity.
Defined.

End pool.

(** ** The round timer (core/timer) *)

Module timer.

(** [kSynchronisationTimoutSeconds] *)
Definition kSynchronisationTimoutSeconds : Z := 20.

(** Modelled from the spec: the package [responses] is not part of the
    sources at hand.  A frame-sync response is a triple (frame index,
    nanoseconds to the next frame, local receipt timestamp); the receipt
    timestamp is stamped by the transport and is not part of the payload,
    so [NewResponseTimeFrame] leaves it at the zero time. *)
Record ResponseTimeFrame : Set := mkResponse {
  FrameIndex : Z;
  NanosecondsLeft : Z;
  Received : Time
}.

Definition NewResponseTimeFrame (frameIndex nanosecondsLeft : Z)
    : ResponseTimeFrame :=
  mkResponse frameIndex nanosecondsLeft zeroTime.

(** [t.Add(d)] of package time: Go's [/] and [%] truncate towards zero. *)
Definition TimeAdd (t : Time) (d : Z) : Time :=
  let dsec := Z.quot d 1000000000 in
  let ns := nsec t + Z.rem d 1000000000 in
  if ns >=? 1000000000 then mkTime (sec t + dsec + 1) (ns - 1000000000)
  else if ns <? 0 then mkTime (sec t + dsec - 1) (ns + 1000000000)
  else mkTime (sec t + dsec) ns.

(** A buffered channel is its queue; a non-blocking send succeeds when
    the queue is below the capacity. *)
Definition try_send {A} (capacity : nat) (queue : list A) (x : A)
    : option (list A) :=
  if (length queue <? capacity)%nat then Some (queue ++ [x]) else None.

Section Timer.

(** [common.AverageBlockGenerationTimeRange], a [time.Duration] in
    nanoseconds, and the type of observers configurations. *)
Variable AverageBlockGenerationTimeRange : Z.
Context {Configuration : Type}.

Record EventTimeFrameEnd : Type := mkEvent {
  Index : Z;
  Conf : option Configuration
}.

(** The fields of [Timer] that the modelled methods read or write.  The
    outgoing frame-end channel is unbuffered: whether a send on it goes
    through is decided by its receiver and is an input of [processTick]. *)
Record Timer : Type := mkTimer {
  OutgoingResponsesTimeFrame : list ResponseTimeFrame;
  IncomingResponsesTimeFrame : list ResponseTimeFrame;
  nextFrameTimestamp : Time;
  synchronisationDeadlineTimestamp : Time;
  isTickerRunning : bool;
  frame : EventTimeFrameEnd
}.

Definition New (initialConfiguration : option Configuration) : Timer :=
  mkTimer [] [] zeroTime zeroTime false
          (mkEvent kInitialTimeFrameIndex initialConfiguration).

Definition set_OutgoingResponsesTimeFrame (t : Timer)
    (q : list ResponseTimeFrame) : Timer :=
  mkTimer q (IncomingResponsesTimeFrame t) (nextFrameTimestamp t)
          (synchronisationDeadlineTimestamp t) (isTickerRunning t) (frame t).

Definition set_IncomingResponsesTimeFrame (t : Timer)
    (q : list ResponseTimeFrame) : Timer :=
  mkTimer (OutgoingResponsesTimeFrame t) q (nextFrameTimestamp t)
          (synchronisationDeadlineTimestamp t) (isTickerRunning t) (frame t).

Definition set_frame (t : Timer) (f : EventTimeFrameEnd) : Timer :=
  mkTimer (OutgoingResponsesTimeFrame t) (IncomingResponsesTimeFrame t)
          (nextFrameTimestamp t) (synchronisationDeadlineTimestamp t)
          (isTickerRunning t) f.

Definition set_nextFrameTimestamp (t : Timer) (ts : Time) : Timer :=
  mkTimer (OutgoingResponsesTimeFrame t) (IncomingResponsesTimeFrame t)
          ts (synchronisationDeadlineTimestamp t) (isTickerRunning t) (frame t).

Definition set_isTickerRunning (t : Timer) (b : bool) : Timer :=
  mkTimer (OutgoingResponsesTimeFrame t) (IncomingResponsesTimeFrame t)
          (nextFrameTimestamp t) (synchronisationDeadlineTimestamp t) b (frame t).

(** [processTimeFrameRequest]; [now] is the reading of [time.Now()].
    Returns the timer and the error. *)
Definition processTimeFrameRequest (t : Timer) (now : Time)
    : Timer * option error :=
  if negb (isTickerRunning t)
     && (Second (synchronisationDeadlineTimestamp t) =? 0)
  then (t, None)
  else
    let kNextFrameTimeLeft :=
      to_int64 (to_int64 AverageBlockGenerationTimeRange
                + Sub (synchronisationDeadlineTimestamp t) now) in
    let response :=
      if Index (frame t) =? kInitialTimeFrameIndex
      then NewResponseTimeFrame 0 (to_uint64 kNextFrameTimeLeft)
      else NewResponseTimeFrame (Index (frame t)) (to_uint64 kNextFrameTimeLeft) in
    match try_send 1 (OutgoingResponsesTimeFrame t) response with
    | Some q => (set_OutgoingResponsesTimeFrame t q, None)
    | None => (t, Some ErrChannelTransferringFailed)
    end.

(** [processTick]; [receiverReady] tells whether a receiver is waiting on
    the unbuffered frame-end channel.  Returns the timer and the event
    handed over, if any. *)
Definition processTick (t : Timer) (receiverReady : bool)
    : Timer * option EventTimeFrameEnd :=
  let nextFrameNumber := to_uint16 (Index (frame t) + 1) in
  let nextFrameNumber :=
    if nextFrameNumber =? ObserversMaxCount then 0 else nextFrameNumber in
  let t := set_frame t (mkEvent nextFrameNumber (Conf (frame t))) in
  (t, if receiverReady then Some (frame t) else None).

(** [processMajorityAndCalculateAverageNextFrameTTL] *)
Definition processMajorityAndCalculateAverageNextFrameTTL
    (majorityOfTimeOffsets : list Z) : Z :=
  if (length majorityOfTimeOffsets =? 0)%nat then 0
  else
    let total :=
      fold_left (fun total ttl => to_uint64 (total + ttl)) majorityOfTimeOffsets 0 in
    total / Z.of_nat (length majorityOfTimeOffsets).

(** The local variables of [processMajorityOfFrameResponses] that live
    across iterations of its loop. *)
Record majority_state : Type := mkMajority {
  rates : gmap Z (list Z);
  topFrameIndex : Z;
  topFrameVotesCount : Z;
  currentTTLsCount : Z
}.

Definition correctedNanosecondsLeft (now : Time) (vote : ResponseTimeFrame) : Z :=
  let timeOffset := Sub now (Received vote) in
  to_int64 (to_int64 (to_int64 AverageBlockGenerationTimeRange
                      + to_int64 (NanosecondsLeft vote))
            - to_int64 timeOffset).

(** One iteration of the loop, for the response [vote] taken from the
    channel. *)
Definition majority_step (now : Time) (st : majority_state)
    (vote : ResponseTimeFrame) : majority_state :=
  let frameIndex := FrameIndex vote in
  let ttl := to_uint64 (correctedNanosecondsLeft now vote) in
  let '(rates', currentTTLsCount') :=
    match rates st !! frameIndex with
    | Some TTLs =>
        (<[frameIndex := TTLs ++ [ttl]]> (rates st),
         Z.of_nat (length (TTLs ++ [ttl])))
    | None => (<[frameIndex := [ttl]]> (rates st), 1)
    end in
  if currentTTLsCount' >? topFrameVotesCount st
  then mkMajority rates' frameIndex currentTTLsCount' currentTTLsCount'
  else mkMajority rates' (topFrameIndex st) (topFrameVotesCount st)
                  currentTTLsCount'.

Definition majority_init : majority_state := mkMajority ∅ 0 0 0.

(** [processMajorityOfFrameResponses]: the timer left behind (the
    responses read are gone from the channel) and the four results.
    Dereferencing a missing entry of [rates] is a nil-pointer panic. *)
Definition processMajorityOfFrameResponses (t : Timer) (now : Time)
    : outcome (Timer * (Z * Z * Z * option error)) :=
  let collectedResponsesCount :=
    to_uint16 (Z.of_nat (length (IncomingResponsesTimeFrame t))) in
  if collectedResponsesCount =? 0
  then Return (t, (0, 0, 0, Some ErrEmptySequence))
  else
    let n := Z.to_nat collectedResponsesCount in
    let st := fold_left (majority_step now)
                        (take n (IncomingResponsesTimeFrame t)) majority_init in
    let t := set_IncomingResponsesTimeFrame t
               (drop n (IncomingResponsesTimeFrame t)) in
    match rates st !! topFrameIndex st with
    | None => Panic
    | Some m =>
        let timeOffsetNanoseconds :=
          processMajorityAndCalculateAverageNextFrameTTL m in
        let frameOffset :=
          if timeOffsetNanoseconds
               >? to_uint64 (to_int64 AverageBlockGenerationTimeRange)
          then 1 else 0 in
        let nextFrameIndex := to_uint16 (topFrameIndex st + frameOffset) in
        let nextFrameIndex :=
          if nextFrameIndex >=? ObserversMaxCount then 0 else nextFrameIndex in
        Return (t, (timeOffsetNanoseconds, nextFrameIndex,
                    collectedResponsesCount, None))
    end.

(** The end of [syncWithOtherObservers], once the responses are
    collected: [now] is read by the majority reduction, [now'] by
    [setNextTick]; the [EventTickerStarted] it posts is handled by
    [processInternalEvent]. *)
Definition syncWithOtherObservers (t : Timer) (now now' : Time)
    : outcome Timer :=
  match processMajorityOfFrameResponses t now with
  | Panic => Panic
  | Return (t, (nextFrameOffset, nextFrameIndex, _, err)) =>
      let t := set_frame t (mkEvent nextFrameIndex None) in
      match err with
      | Some _ =>
          Return (set_nextFrameTimestamp t
                    (TimeAdd now' (to_int64 AverageBlockGenerationTimeRange)))
      | None =>
          Return (set_nextFrameTimestamp t
                    (TimeAdd now' (to_int64 nextFrameOffset)))
      end
  end.

(** [processInternalEvent] on an [EventTickerStarted]. *)
Definition processInternalEvent_TickerStarted (t : Timer) : Timer * option error :=
  (set_isTickerRunning t true, None).

(** The frame indices produced by a run of ticks; one entry of
    [receivers] per tick. *)
Fixpoint run_ticks (t : Timer) (receivers : list bool) : list Z :=
  match receivers with
  | [] => []
  | r :: rest =>
      let t' := (processTick t r).1 in
      Index (frame t') :: run_ticks t' rest
  end.

(** Frame indices in which each one follows its predecessor by one step
    modulo [ObserversMaxCount]. *)
Fixpoint consecutive_frames (prev : Z) (indices : list Z) : Prop :=
  match indices with
  | [] => True
  | next :: rest =>
      next = (prev + 1) mod ObserversMaxCount /\ consecutive_frames next rest
  end.

(** The frame-end events handed to the receiver during a run of ticks. *)
Fixpoint delivered_frames (t : Timer) (receivers : list bool) : list Z :=
  match receivers with
  | [] => []
  | r :: rest =>
      let '(t', e) := processTick t r in
      match e with
      | Some ev => Index ev :: delivered_frames t' rest
      | None => delivered_frames t' rest
      end
  end.

(** The entries of [frames] at the ticks whose receiver was ready. *)
Fixpoint ready_frames (frames : list Z) (receivers : list bool) : list Z :=
  match frames, receivers with
  | f :: frames', r :: receivers' =>
      if r then f :: ready_frames frames' receivers'
      else ready_frames frames' receivers'
  | _, _ => []
  end.

(** *** The majority reduction in the words of the specification *)

(** The group of a frame index and its cardinality. *)
Definition votes_for (f : Z) (votes : list ResponseTimeFrame)
    : list ResponseTimeFrame :=
  filter (fun v => FrameIndex v = f) votes.

Definition cardinality (f : Z) (votes : list ResponseTimeFrame) : nat :=
  length (votes_for f votes).

(** corrected_ns_left = avg_block_gen_interval + nanoseconds_left
                        - (now - received_at). *)
Definition corrected_ns_left (now : Time) (v : ResponseTimeFrame) : Z :=
  AverageBlockGenerationTimeRange + NanosecondsLeft v - Sub now (Received v).

Definition average (l : list Z) : Z := sum_list l / Z.of_nat (length l).




(** What the code selects on a tie: the frame index whose group is the
    first to reach the largest cardinality [M] while the responses are
    read in order. *)
Definition first_to_reach_largest (votes : list ResponseTimeFrame) (top : Z)
    : Prop :=
  exists l1 v l2 (M : nat),
    votes = l1 ++ v :: l2 /\
    FrameIndex v = top /\
    cardinality top (l1 ++ [v]) = M /\
    (forall g, (cardinality g l1 < M)%nat) /\
    (forall g, (cardinality g votes <= M)%nat).

(** *** The loop of the majority reduction *)

Lemma votes_for_snoc (f : Z) (p : list ResponseTimeFrame) (v : ResponseTimeFrame) :
  votes_for f (p ++ [v])
  = votes_for f p ++ (if decide (FrameIndex v = f) then [v] else []).
Proof.
  unfold votes_for. rewrite filter_app. reflexivity.
Qed.

Lemma cardinality_snoc (f : Z) (p : list ResponseTimeFrame) (v : ResponseTimeFrame) :
  cardinality f (p ++ [v])
  = (cardinality f p + (if decide (FrameIndex v = f) then 1 else 0))%nat.
Proof.
  unfold cardinality. rewrite votes_for_snoc, length_app.
  destruct (decide (FrameIndex v = f)); reflexivity.
Qed.

Lemma cardinality_app_le (f : Z) (p q : list ResponseTimeFrame) :
  (cardinality f p <= cardinality f (p ++ q))%nat.
Proof.
  unfold cardinality, votes_for. rewrite filter_app, length_app. lia.
Qed.

(** What the map [rates] holds once the responses [p] are read. *)
Definition rates_of (now : Time) (p : list ResponseTimeFrame)
    (r : gmap Z (list Z)) : Prop :=
  forall f,
    r !! f =
      match votes_for f p with
      | [] => None
      | g => Some (map (fun v => to_uint64 (correctedNanosecondsLeft now v)) g)
      end.

(** What the running top frame is once the responses [p] are read. *)
Definition top_of (p : list ResponseTimeFrame) (top count : Z) : Prop :=
  (forall g, Z.of_nat (cardinality g p) <= count) /\
  ((p = [] /\ count = 0) \/
   exists l1 v l2,
     p = l1 ++ v :: l2 /\
     FrameIndex v = top /\
     Z.of_nat (cardinality top (l1 ++ [v])) = count /\
     forall g, Z.of_nat (cardinality g l1) < count).

Definition majority_inv (now : Time) (p : list ResponseTimeFrame)
    (st : majority_state) : Prop :=
  rates_of now p (rates st) /\
  top_of p (topFrameIndex st) (topFrameVotesCount st).

Lemma majority_step_unfold (now : Time) (p : list ResponseTimeFrame)
    (st : majority_state) (v : ResponseTimeFrame) :
  rates_of now p (rates st) ->
  let f := FrameIndex v in
  let cur := Z.of_nat (S (cardinality f p)) in
  let r' := <[f := map (fun v => to_uint64 (correctedNanosecondsLeft now v))
                       (votes_for f (p ++ [v]))]> (rates st) in
  majority_step now st v =
    if cur >? topFrameVotesCount st
    then mkMajority r' f cur cur
    else mkMajority r' (topFrameIndex st) (topFrameVotesCount st) cur.
Proof.
  intros Hr f cur r'. subst f cur r'. unfold majority_step.
  rewrite (Hr (FrameIndex v)), votes_for_snoc.
  rewrite decide_True by reflexivity.
  unfold cardinality.
  destruct (votes_for (FrameIndex v) p) as [|w g] eqn:Hg.
  - reflexivity.
  - rewrite map_app. simpl map.
    replace (Z.of_nat (length ((to_uint64 (correctedNanosecondsLeft now w)
               :: map (fun v0 => to_uint64 (correctedNanosecondsLeft now v0)) g)
               ++ [to_uint64 (correctedNanosecondsLeft now v)])))
      with (Z.of_nat (S (length (w :: g)))).
    + reflexivity.
    + rewrite length_app. simpl. rewrite length_map. f_equal. lia.
Qed.

Lemma rates_of_step (now : Time) (p : list ResponseTimeFrame)
    (r : gmap Z (list Z)) (v : ResponseTimeFrame) :
  rates_of now p r ->
  rates_of now (p ++ [v])
    (<[FrameIndex v := map (fun v => to_uint64 (correctedNanosecondsLeft now v))
                           (votes_for (FrameIndex v) (p ++ [v]))]> r).
Proof.
  intros Hr f.
  destruct (decide (FrameIndex v = f)) as [<-|Hne].
  - rewrite lookup_insert_eq, votes_for_snoc, decide_True by reflexivity.
    destruct (votes_for (FrameIndex v) p); reflexivity.
  - rewrite lookup_insert_ne by exact Hne.
    rewrite votes_for_snoc, decide_False by exact Hne.
    rewrite app_nil_r. apply Hr.
Qed.

Lemma top_of_step (p : list ResponseTimeFrame) (top count : Z)
    (v : ResponseTimeFrame) :
  top_of p top count ->
  let cur := Z.of_nat (S (cardinality (FrameIndex v) p)) in
  top_of (p ++ [v])
         (if cur >? count then FrameIndex v else top)
         (if cur >? count then cur else count).
Proof.
  intros [Hmax Htop] cur. subst cur.
  destruct (Z.of_nat (S (cardinality (FrameIndex v) p)) >? count) eqn:Hcmp.
  - apply Z.gtb_lt in Hcmp. split.
    + intros g. rewrite cardinality_snoc. specialize (Hmax g).
      destruct (decide (FrameIndex v = g)) as [<-|]; lia.
    + right. exists p, v, []. repeat split.
      * rewrite cardinality_snoc, decide_True by reflexivity. lia.
      * intros g. specialize (Hmax g). lia.
  - rewrite Z.gtb_ltb in Hcmp. apply Z.ltb_ge in Hcmp. split.
    + intros g. rewrite cardinality_snoc. specialize (Hmax g).
      destruct (decide (FrameIndex v = g)) as [<-|]; lia.
    + right. destruct Htop as [[-> ->]|(l1 & w & l2 & -> & Hw & Hc & Hlt)].
      * unfold cardinality in Hcmp. simpl in Hcmp. lia.
      * exists l1, w, (l2 ++ [v]). repeat split; try assumption.
        rewrite <- app_assoc. reflexivity.
Qed.

Lemma majority_inv_init (now : Time) : majority_inv now [] majority_init.
Proof.
  split.
  - intros f. simpl. apply lookup_empty.
  - split; [intros g; unfold cardinality, votes_for; simpl; lia | left; auto].
Qed.

Lemma majority_inv_step (now : Time) (p : list ResponseTimeFrame)
    (st : majority_state) (v : ResponseTimeFrame) :
  majority_inv now p st -> majority_inv now (p ++ [v]) (majority_step now st v).
Proof.
  intros [Hr Ht].
  pose proof (majority_step_unfold now p st v Hr) as Hstep. simpl in Hstep.
  pose proof (rates_of_step now p (rates st) v Hr) as Hr'.
  pose proof (top_of_step p _ _ v Ht) as Ht'. simpl in Ht'.
  rewrite Hstep.
  destruct (Z.of_nat (S (cardinality (FrameIndex v) p)) >? topFrameVotesCount st);
    split; assumption.
Qed.

Lemma majority_inv_fold (now : Time) (votes : list ResponseTimeFrame) :
  majority_inv now votes (fold_left (majority_step now) votes majority_init).
Proof.
  induction votes as [|v votes IH] using rev_ind.
  - apply majority_inv_init.
  - rewrite fold_left_app. simpl. apply majority_inv_step, IH.
Qed.

(** *** The tie-break determines the top frame *)

Lemma cardinality_earlier_prefix (f : Z)
    (l1 l2 l1' l2' : list ResponseTimeFrame) (x x' : ResponseTimeFrame) :
  l1 ++ x :: l2 = l1' ++ x' :: l2' ->
  (length l1 < length l1')%nat ->
  (cardinality f (l1 ++ [x]) <= cardinality f l1')%nat.
Proof.
  intros Heq Hlen.
  apply app_eq_app in Heq as [k [[-> _]|[-> Hk]]].
  - rewrite length_app in Hlen. lia.
  - destruct k as [|y k].
    + rewrite app_nil_r in Hlen. lia.
    + simpl in Hk. injection Hk as <- _.
      change (x :: k) with ([x] ++ k). rewrite app_assoc.
      apply cardinality_app_le.
Qed.

Lemma first_to_reach_largest_cardinality (votes : list ResponseTimeFrame)
    (l1 l2 : list ResponseTimeFrame) (v : ResponseTimeFrame) (M : nat) :
  votes = l1 ++ v :: l2 ->
  cardinality (FrameIndex v) (l1 ++ [v]) = M ->
  (forall g, (cardinality g votes <= M)%nat) ->
  cardinality (FrameIndex v) votes = M.
Proof.
  intros Hsplit Hc Hmax.
  apply Nat.le_antisymm; [apply Hmax|].
  rewrite <- Hc, Hsplit. change (v :: l2) with ([v] ++ l2). rewrite app_assoc.
  apply cardinality_app_le.
Qed.

Lemma first_to_reach_largest_unique (votes : list ResponseTimeFrame) (a b : Z) :
  first_to_reach_largest votes a -> first_to_reach_largest votes b -> a = b.
Proof.
  intros (l1 & v & l2 & M & Hs & Hv & Hc & Hlt & Hmax)
         (l1' & v' & l2' & M' & Hs' & Hv' & Hc' & Hlt' & Hmax').
  subst a b.
  pose proof (first_to_reach_largest_cardinality _ _ _ _ _ Hs Hc Hmax) as Ha.
  pose proof (first_to_reach_largest_cardinality _ _ _ _ _ Hs' Hc' Hmax') as Hb.
  assert (HM : M = M').
  { apply Nat.le_antisymm.
    - rewrite <- Ha. apply Hmax'.
    - rewrite <- Hb. apply Hmax. }
  subst M'.
  assert (Heq : l1 ++ v :: l2 = l1' ++ v' :: l2') by congruence.
  destruct (Nat.lt_trichotomy (length l1) (length l1')) as [Hlen|[Hlen|Hlen]].
  - pose proof (cardinality_earlier_prefix (FrameIndex v) _ _ _ _ _ _ Heq Hlen).
    specialize (Hlt' (FrameIndex v)). lia.
  - apply app_inj_1 in Heq as [_ Hcons]; [|exact Hlen].
    congruence.
  - symmetry in Heq.
    pose proof (cardinality_earlier_prefix (FrameIndex v') _ _ _ _ _ _ Heq Hlen).
    specialize (Hlt (FrameIndex v')). lia.
Qed.

(** *** Arithmetic of the corrected offsets *)







Lemma average_of_offsets (l : list Z) :
  l <> [] -> 0 <= sum_list l < 2 ^ 64 ->
  processMajorityAndCalculateAverageNextFrameTTL l = average l.
Proof.
  intros Hne Hsum. unfold processMajorityAndCalculateAverageNextFrameTTL, average.
  destruct l as [|x l]; [congruence|].
  simpl length. simpl Nat.eqb. cbv iota.
  rewrite wrapped_total by lia. rewrite Z.add_0_l.
  rewrite to_uint64_small by exact Hsum. reflexivity.
Qed.



(** *** Serving time-frame requests *)

(** Neither running nor synchronising (the deadline is the zero time):
    the request is ignored. *)
Lemma processTimeFrameRequest_idle (t : Timer) (now : Time) :
  isTickerRunning t = false ->
  synchronisationDeadlineTimestamp t = zeroTime ->
  processTimeFrameRequest t now = (t, None).
Proof.
  intros Hrun Hdl. unfold processTimeFrameRequest.
  rewrite Hrun, Hdl. reflexivity.
Qed.

(** The test the code makes is on the seconds field of the deadline. *)
Lemma processTimeFrameRequest_second_zero (t : Timer) (now : Time) :
  isTickerRunning t = false ->
  Second (synchronisationDeadlineTimestamp t) = 0 ->
  processTimeFrameRequest t now = (t, None).
Proof.
  intros Hrun Hdl. unfold processTimeFrameRequest.
  rewrite Hrun, Hdl. reflexivity.
Qed.

(** The response that is built otherwise. *)
Definition time_frame_response (t : Timer) (now : Time) : ResponseTimeFrame :=
  mkResponse
    (if Index (frame t) =? kInitialTimeFrameIndex then 0 else Index (frame t))
    (to_uint64 (AverageBlockGenerationTimeRange
                + Sub (synchronisationDeadlineTimestamp t) now))
    zeroTime.

Lemma processTimeFrameRequest_reply (t : Timer) (now : Time) :
  isTickerRunning t = true \/ Second (synchronisationDeadlineTimestamp t) <> 0 ->
  processTimeFrameRequest t now =
    match OutgoingResponsesTimeFrame t with
    | [] => (set_OutgoingResponsesTimeFrame t [time_frame_response t now], None)
    | _ :: _ => (t, Some ErrChannelTransferringFailed)
    end.
Proof.
  intros Hcond. unfold processTimeFrameRequest.
  assert (Hguard : negb (isTickerRunning t)
                   && (Second (synchronisationDeadlineTimestamp t) =? 0) = false).
  { destruct Hcond as [->|Hsec]; [reflexivity|].
    apply Z.eqb_neq in Hsec. rewrite Hsec. apply andb_false_r. }
  rewrite Hguard.
  assert (Hresp :
    (if Index (frame t) =? kInitialTimeFrameIndex
     then NewResponseTimeFrame 0
            (to_uint64 (to_int64 (to_int64 AverageBlockGenerationTimeRange
                                  + Sub (synchronisationDeadlineTimestamp t) now)))
     else NewResponseTimeFrame (Index (frame t))
            (to_uint64 (to_int64 (to_int64 AverageBlockGenerationTimeRange
                                  + Sub (synchronisationDeadlineTimestamp t) now))))
    = time_frame_response t now).
  { unfold time_frame_response, NewResponseTimeFrame.
    rewrite to_uint64_to_int64.
    assert (Hmod : to_uint64 (to_int64 AverageBlockGenerationTimeRange
                              + Sub (synchronisationDeadlineTimestamp t) now)
                   = to_uint64 (AverageBlockGenerationTimeRange
                                + Sub (synchronisationDeadlineTimestamp t) now)).
    { unfold to_uint64. rewrite Zplus_mod.
      change (to_int64 AverageBlockGenerationTimeRange mod 2 ^ 64)
        with (to_uint64 (to_int64 AverageBlockGenerationTimeRange)).
      rewrite to_uint64_to_int64. unfold to_uint64.
      rewrite <- Zplus_mod. reflexivity. }
    rewrite Hmod. destruct (Index (frame t) =? kInitialTimeFrameIndex); reflexivity. }
  cbv zeta. rewrite Hresp.
  destruct (OutgoingResponsesTimeFrame t) as [|x q]; reflexivity.
Qed.

(** *** Ticks *)

Lemma processTick_index (t : Timer) (receiverReady : bool) :
  0 <= Index (frame t) < ObserversMaxCount
  \/ Index (frame t) = kInitialTimeFrameIndex ->
  Index (frame (processTick t receiverReady).1)
  = (Index (frame t) + 1) mod ObserversMaxCount.
Proof.
  unfold processTick, ObserversMaxCount, kInitialTimeFrameIndex. simpl.
  intros [Hidx| ->].
  - rewrite to_uint16_small by lia.
    destruct (Index (frame t) + 1 =? 1024) eqn:Hcmp.
    + apply Z.eqb_eq in Hcmp. rewrite Hcmp. reflexivity.
    + apply Z.eqb_neq in Hcmp. rewrite Z.mod_small by lia. reflexivity.
  - reflexivity.
Qed.

Lemma processTick_delivers (t : Timer) (receiverReady : bool) :
  (processTick t receiverReady).2
  = if receiverReady then Some (frame (processTick t receiverReady).1) else None.
Proof. reflexivity. Qed.

Lemma run_ticks_consecutive (receivers : list bool) (t : Timer) :
  0 <= Index (frame t) < ObserversMaxCount
  \/ Index (frame t) = kInitialTimeFrameIndex ->
  consecutive_frames (Index (frame t)) (run_ticks t receivers).
Proof.
  revert t. induction receivers as [|r receivers IH]; intros t Hidx;
    cbn [run_ticks consecutive_frames].
  - exact I.
  - pose proof (processTick_index t r Hidx) as Hnext.
    split; [exact Hnext|].
    apply IH. left. rewrite Hnext.
    apply Z.mod_pos_bound. reflexivity.
Qed.

(** *** Synchronisation always ends with a frame index in range *)

Lemma processMajorityOfFrameResponses_returns (t : Timer) (now : Time) :
  exists t' offset index count err,
    processMajorityOfFrameResponses t now
    = Return (t', (offset, index, count, err)) /\
    0 <= index < ObserversMaxCount.
Proof.
  unfold processMajorityOfFrameResponses.
  set (n := to_uint16 (Z.of_nat (length (IncomingResponsesTimeFrame t)))).
  destruct (n =? 0) eqn:Hn.
  { eexists _, _, _, _, _. split; [reflexivity|]. unfold ObserversMaxCount. lia. }
  apply Z.eqb_neq in Hn.
  set (votes := take (Z.to_nat n) (IncomingResponsesTimeFrame t)).
  pose proof (majority_inv_fold now votes) as [Hrates [Hmax Htop]].
  set (st := fold_left (majority_step now) votes majority_init) in *.
  assert (Hvotes : votes <> []).
  { subst votes. assert (0 <= n) by (apply Z.mod_pos_bound; reflexivity).
    destruct (IncomingResponsesTimeFrame t) as [|v l];
      [simpl in n; subst n; compute in Hn; congruence|].
    destruct (Z.to_nat n) eqn:Hnat; [lia|]. simpl. discriminate. }
  destruct Htop as [[Hnil _]|(l1 & v & l2 & Hsplit & Hv & Hcount & Hlt)];
    [contradiction|].
  rewrite (Hrates (topFrameIndex st)).
  destruct (votes_for (topFrameIndex st) votes) as [|w g] eqn:Hgroup.
  { exfalso.
    assert (Hle : (cardinality (topFrameIndex st) (l1 ++ [v])
                   <= cardinality (topFrameIndex st) votes)%nat).
    { rewrite Hsplit. change (v :: l2) with ([v] ++ l2). rewrite app_assoc.
      apply cardinality_app_le. }
    unfold cardinality at 2 in Hle. rewrite Hgroup in Hle. simpl in Hle.
    specialize (Hlt 0). lia. }
  eexists _, _, _, _, _. split; [reflexivity|].
  match goal with
  | |- 0 <= (if ?x >=? _ then _ else _) < _ =>
      destruct (x >=? ObserversMaxCount) eqn:Hcmp;
        [unfold ObserversMaxCount; lia|];
      rewrite Z.geb_leb in Hcmp; apply Z.leb_gt in Hcmp;
      split; [apply Z.mod_pos_bound; reflexivity|lia]
  end.
Qed.

Lemma syncWithOtherObservers_index (t : Timer) (now now' : Time) :
  match syncWithOtherObservers t now now' with
  | Return t0 => 0 <= Index (frame t0) < ObserversMaxCount
  | Panic => False
  end.
Proof.
  unfold syncWithOtherObservers.
  destruct (processMajorityOfFrameResponses_returns t now)
    as (t' & offset & index & count & err & -> & Hidx).
  destruct err; exact Hidx.
Qed.

Lemma run_ticks_length (receivers : list bool) (t : Timer) :
  length (run_ticks t receivers) = length receivers.
Proof.
  revert t. induction receivers as [|r receivers IH]; intros t; [reflexivity|].
  cbn [run_ticks length]. rewrite IH. reflexivity.
Qed.

Lemma delivered_frames_ready (receivers : list bool) (t : Timer) :
  delivered_frames t receivers = ready_frames (run_ticks t receivers) receivers.
Proof.
  revert t. induction receivers as [|r receivers IH]; intros t; [reflexivity|].
  cbn [delivered_frames run_ticks ready_frames].
  destruct (processTick t r) as [t' e] eqn:Htick.
  pose proof (processTick_delivers t r) as He. rewrite Htick in He.
  cbn [fst snd] in *. subst e.
  destruct r; rewrite IH; reflexivity.
Qed.

Lemma ready_frames_all_ready (frames : list Z) :
  ready_frames frames (replicate (length frames) true) = frames.
Proof.
  induction frames as [|f frames IH]; [reflexivity|].
  simpl. rewrite IH. reflexivity.
Qed.

Lemma delivered_frames_all_ready (n : nat) (t : Timer) :
  delivered_frames t (replicate n true) = run_ticks t (replicate n true).
Proof.
  rewrite delivered_frames_ready.
  pose proof (run_ticks_length (replicate n true) t) as Hlen.
  rewrite length_replicate in Hlen. rewrite <- Hlen at 2.
  apply ready_frames_all_ready.
Qed.

(** C8, as the code behaves.  Synchronisation always completes and leaves
    a frame index below [ObserversMaxCount].  From then on every tick
    sets the frame index to the previous one plus one modulo
    [ObserversMaxCount], whatever the readiness of the receiver.  The
    frame-end event of a tick is handed over only when a receiver is
    ready and is dropped otherwise: the indices emitted are those of the
    ticks whose receiver was ready, in order; with a receiver ready at
    every tick they are all the frames, each one following its
    predecessor by one.  Before synchronisation the index is the MAX-u16
    sentinel, and the first tick turns it into 0. *)
Theorem ticks_advance_and_emit_ready_frames
    (t : Timer) (now now' : Time) (receivers : list bool) :
  match syncWithOtherObservers t now now' with
  | Return t0 =>
      consecutive_frames (Index (frame t0)) (run_ticks t0 receivers) /\
      delivered_frames t0 receivers
      = ready_frames (run_ticks t0 receivers) receivers /\
      (forall n,
         delivered_frames t0 (replicate n true) = run_ticks t0 (replicate n true) /\
         consecutive_frames (Index (frame t0))
                            (delivered_frames t0 (replicate n true)))
  | Panic => False
  end /\
  (forall conf r,
     run_ticks (New conf) (r :: receivers)
     = 0 :: run_ticks (set_frame (New conf) (mkEvent 0 conf)) receivers) /\
  (forall conf, consecutive_frames kInitialTimeFrameIndex
                  (run_ticks (New conf) receivers)).
Proof.
  split; [|split].
  - pose proof (syncWithOtherObservers_index t now now') as Hidx.
    destruct (syncWithOtherObservers t now now') as [t0|]; [|exact Hidx].
    split; [|split].
    + apply run_ticks_consecutive. left. exact Hidx.
    + apply delivered_frames_ready.
    + intros n. split; [apply delivered_frames_all_ready|].
      rewrite delivered_frames_all_ready.
      apply run_ticks_consecutive. left. exact Hidx.
  - intros conf r. reflexivity.
  - intros conf.
    apply (run_ticks_consecutive receivers (New conf)). right. reflexivity.
Qed.

(** *** Further methods of the timer *)

(** The events of the internal bus: [*EventTickerStarted], or anything
    else. *)
Inductive internal_event : Set :=
| EventTickerStarted
| OtherEvent.

(** [processInternalEvent] *)
Definition processInternalEvent (t : Timer) (event : internal_event)
    : Timer * option error :=
  match event with
  | EventTickerStarted => (set_isTickerRunning t true, None)
  | OtherEvent => (t, Some NilParameter)
  end.

(** [nextFrameTimeLeft]: every call of [time.Now()] takes the next
    reading of [clock]; the result is the timer, the duration returned and
    the readings left, or [None] when the readings are used up before the
    method returns. *)
Fixpoint nextFrameTimeLeft (clock : list Time) (t : Timer)
    : option (Timer * Z * list Time) :=
  match clock with
  | [] => None
  | now :: clock' =>
      let timeLeft := Sub (nextFrameTimestamp t) now in
      if timeLeft <=? 0 then
        match clock' with
        | [] => None
        | now' :: clock'' =>
            let t := set_nextFrameTimestamp t
                       (TimeAdd (TimeAdd now' (to_int64 AverageBlockGenerationTimeRange))
                                (to_int64 (to_int64 (timeLeft * 1) * -1))) in
            nextFrameTimeLeft clock'' t
        end
      else Some (t, timeLeft, clock')
  end.

(** Nanoseconds since the zero time. *)
Definition nanos (t : Time) : Z := sec t * 1000000000 + nsec t.

Lemma nanos_TimeAdd (t : Time) (d : Z) : nanos (TimeAdd t d) = nanos t + d.
Proof.
  unfold TimeAdd, nanos.
  pose proof (Z.quot_rem' d 1000000000) as Hd.
  destruct (nsec t + Z.rem d 1000000000 >=? 1000000000);
    [|destruct (nsec t + Z.rem d 1000000000 <? 0)]; simpl; lia.
Qed.

Lemma Sub_nanos (t u : Time) :
  - 2 ^ 63 <= nanos t - nanos u < 2 ^ 63 -> Sub t u = nanos t - nanos u.
Proof.
  unfold Sub, nanos, minDuration, maxDuration. intros Hr.
  destruct ((sec t - sec u) * 1000000000 + (nsec t - nsec u) <? - 2 ^ 63) eqn:H1.
  { apply Z.ltb_lt in H1. lia. }
  destruct (2 ^ 63 - 1 <? (sec t - sec u) * 1000000000 + (nsec t - nsec u)) eqn:H2.
  { apply Z.ltb_lt in H2. lia. }
  lia.
Qed.

(** X9.  The majority reduction reads every response of the channel
    (which holds at most [ObserversMaxCount] of them), reports how many it
    read, and signals [ErrEmptySequence] exactly when there was none, in
    which case the timer is left as it was. *)
Theorem processMajorityOfFrameResponses_drains (t : Timer) (now : Time) :
  Z.of_nat (length (IncomingResponsesTimeFrame t)) <= ObserversMaxCount ->
  exists t' offset index err,
    processMajorityOfFrameResponses t now
    = Return (t', (offset, index,
                   Z.of_nat (length (IncomingResponsesTimeFrame t)), err)) /\
    IncomingResponsesTimeFrame t' = [] /\
    (err = Some ErrEmptySequence <-> IncomingResponsesTimeFrame t = []) /\
    (err = None <-> IncomingResponsesTimeFrame t <> []) /\
    (IncomingResponsesTimeFrame t = [] -> t' = t).
Proof.
  intros Hcap. unfold processMajorityOfFrameResponses.
  set (votes := IncomingResponsesTimeFrame t) in *.
  assert (Hn : to_uint16 (Z.of_nat (length votes)) = Z.of_nat (length votes)).
  { apply to_uint16_small. unfold ObserversMaxCount in Hcap. lia. }
  rewrite Hn.
  destruct votes as [|v votes'] eqn:Hvotes.
  { simpl. exists t, 0, 0, (Some ErrEmptySequence).
    repeat split; try congruence; auto. }
  rewrite <- Hvotes in *.
  assert (Hne : votes <> []) by (rewrite Hvotes; discriminate).
  destruct (Z.of_nat (length votes) =? 0) eqn:Hz.
  { apply Z.eqb_eq in Hz. rewrite Hvotes in Hz. simpl in Hz. lia. }
  rewrite Nat2Z.id, take_ge, drop_ge by lia.
  pose proof (majority_inv_fold now votes) as [Hrates [Hmax Htop]].
  set (st := fold_left (majority_step now) votes majority_init) in *.
  destruct Htop as [[Hnil _]|(l1 & w & l2 & Hsplit & Hw & Hcount & Hlt)];
    [contradiction|].
  rewrite (Hrates (topFrameIndex st)).
  destruct (votes_for (topFrameIndex st) votes) as [|x g] eqn:Hgroup.
  { exfalso.
    assert (Hle : (cardinality (topFrameIndex st) (l1 ++ [w])
                   <= cardinality (topFrameIndex st) votes)%nat).
    { rewrite Hsplit. change (w :: l2) with ([w] ++ l2). rewrite app_assoc.
      apply cardinality_app_le. }
    unfold cardinality at 2 in Hle. rewrite Hgroup in Hle. simpl in Hle.
    specialize (Hlt 0). lia. }
  eexists _, _, _, None. split; [reflexivity|].
  repeat split; try congruence; try discriminate; auto.
Qed.

(** X10.  A request is answered whenever the ticker runs or the seconds
    field of the synchronisation deadline is not zero: with room in the
    outgoing channel one response is queued, carrying the frame index (0
    for the MAX-u16 sentinel) and, as a uint64, the block-generation
    interval plus the time from now to the deadline; with the channel
    full the call returns [ErrChannelTransferringFailed] and changes
    nothing. *)
Theorem processTimeFrameRequest_answers (t : Timer) (now : Time) :
  isTickerRunning t = true \/ Second (synchronisationDeadlineTimestamp t) <> 0 ->
  (OutgoingResponsesTimeFrame t = [] ->
   processTimeFrameRequest t now =
     (set_OutgoingResponsesTimeFrame t
        [mkResponse
           (if Index (frame t) =? kInitialTimeFrameIndex then 0
            else Index (frame t))
           ((AverageBlockGenerationTimeRange
             + Sub (synchronisationDeadlineTimestamp t) now) mod 2 ^ 64)
           zeroTime],
      None)) /\
  (OutgoingResponsesTimeFrame t <> [] ->
   processTimeFrameRequest t now = (t, Some ErrChannelTransferringFailed)).
Proof.
  intros Hcond. rewrite (processTimeFrameRequest_reply t now Hcond).
  split; intros Hq.
  - rewrite Hq. reflexivity.
  - destruct (OutgoingResponsesTimeFrame t); [congruence|reflexivity].
Qed.

(** X11.  Serving a request changes nothing of the timer but the queue
    of outgoing responses; the queue never exceeds its capacity of one;
    and the only error is [ErrChannelTransferringFailed], returned with
    the timer untouched. *)
Theorem processTimeFrameRequest_frame (t : Timer) (now : Time) :
  let t' := (processTimeFrameRequest t now).1 in
  let err := (processTimeFrameRequest t now).2 in
  frame t' = frame t /\
  isTickerRunning t' = isTickerRunning t /\
  synchronisationDeadlineTimestamp t' = synchronisationDeadlineTimestamp t /\
  nextFrameTimestamp t' = nextFrameTimestamp t /\
  IncomingResponsesTimeFrame t' = IncomingResponsesTimeFrame t /\
  (err = None \/ (err = Some ErrChannelTransferringFailed /\ t' = t)) /\
  ((length (OutgoingResponsesTimeFrame t) <= 1)%nat ->
   (length (OutgoingResponsesTimeFrame t') <= 1)%nat).
Proof.
  cbv zeta. unfold processTimeFrameRequest.
  destruct (negb (isTickerRunning t)
            && (Second (synchronisationDeadlineTimestamp t) =? 0)).
  { simpl. repeat split; auto. }
  unfold try_send.
  destruct (OutgoingResponsesTimeFrame t) as [|x q] eqn:Hq; simpl.
  - repeat split; auto.
  - destruct q; simpl; rewrite ?Hq; repeat split; auto.
Qed.

(** X12.  [processInternalEvent] starts the ticker on
    [EventTickerStarted]; from then on a request is answered whatever
    the synchronisation deadline is.  Any other event is refused with
    [ErrNilParameter] and changes nothing. *)
Theorem processInternalEvent_starts_ticker (t : Timer) (now : Time) :
  OutgoingResponsesTimeFrame t = [] ->
  let t1 := (processInternalEvent t EventTickerStarted).1 in
  (processInternalEvent t EventTickerStarted).2 = None /\
  isTickerRunning t1 = true /\
  (exists response,
     processTimeFrameRequest t1 now
     = (set_OutgoingResponsesTimeFrame t1 [response], None) /\
     FrameIndex response
     = (if Index (frame t) =? kInitialTimeFrameIndex then 0
        else Index (frame t))) /\
  processInternalEvent t OtherEvent = (t, Some NilParameter).
Proof.
  intros Hq t1. subst t1. simpl. repeat split.
  rewrite processTimeFrameRequest_reply by (left; reflexivity).
  simpl. rewrite Hq. eexists. split; reflexivity.
Qed.

Lemma run_ticks_lookup (receivers : list bool) (t : Timer) (k : nat) :
  0 <= Index (frame t) < ObserversMaxCount ->
  (k < length receivers)%nat ->
  run_ticks t receivers !! k
  = Some ((Index (frame t) + Z.of_nat k + 1) mod ObserversMaxCount).
Proof.
  revert t k. induction receivers as [|r receivers IH]; intros t k Hidx Hk;
    [simpl in Hk; lia|].
  cbn [run_ticks].
  pose proof (processTick_index t r (or_introl Hidx)) as Hnext.
  destruct k as [|k].
  - transitivity (Some (Index (frame (processTick t r).1))); [reflexivity|].
    rewrite Hnext. do 2 f_equal. lia.
  - simpl in Hk.
    transitivity (run_ticks (processTick t r).1 receivers !! k); [reflexivity|].
    rewrite IH.
    + rewrite Hnext. f_equal.
      rewrite <- Z.add_assoc, Zplus_mod_idemp_l. f_equal. lia.
    + rewrite Hnext. apply Z.mod_pos_bound. reflexivity.
    + lia.
Qed.

(** X13.  From a frame index in range, the k-th tick (counting from 0)
    produces the index (index + k + 1) mod [ObserversMaxCount]; in
    particular the [ObserversMaxCount]-th tick brings the starting index
    back. *)
Theorem run_ticks_closed_form (receivers : list bool) (t : Timer) (k : nat) :
  0 <= Index (frame t) < ObserversMaxCount ->
  (k < length receivers)%nat ->
  run_ticks t receivers !! k
  = Some ((Index (frame t) + Z.of_nat k + 1) mod ObserversMaxCount) /\
  (Z.of_nat k + 1 = ObserversMaxCount ->
   run_ticks t receivers !! k = Some (Index (frame t))).
Proof.
  intros Hidx Hk. rewrite (run_ticks_lookup receivers t k Hidx Hk).
  split; [reflexivity|].
  intros Hperiod. f_equal.
  replace (Index (frame t) + Z.of_nat k + 1)
    with (Index (frame t) + 1 * ObserversMaxCount) by lia.
  rewrite Z.mod_add by (unfold ObserversMaxCount; lia).
  apply Z.mod_small, Hidx.
Qed.

(** X14.  [nextFrameTimeLeft] called when the target is already passed
    by an overrun [o] moves the target to its second clock reading plus
    one block-generation interval plus [o], and returns what is left of
    that at the third reading, a positive duration; the frame is not
    touched. *)
Theorem nextFrameTimeLeft_catches_up
    (t : Timer) (now now' now'' : Time) (clock : list Time) :
  let o := nanos now - nanos (nextFrameTimestamp t) in
  let delay := nanos now'' - nanos now' in
  0 <= AverageBlockGenerationTimeRange ->
  0 <= o ->
  AverageBlockGenerationTimeRange + o < 2 ^ 63 ->
  0 <= delay < AverageBlockGenerationTimeRange + o ->
  exists t',
    nextFrameTimeLeft (now :: now' :: now'' :: clock) t
    = Some (t', AverageBlockGenerationTimeRange + o - delay, clock) /\
    0 < AverageBlockGenerationTimeRange + o - delay /\
    nanos (nextFrameTimestamp t')
    = nanos now' + AverageBlockGenerationTimeRange + o /\
    frame t' = frame t.
Proof.
  intros o delay Havg Ho Hfit Hdelay. subst o delay.
  cbn [nextFrameTimeLeft].
  rewrite (Sub_nanos (nextFrameTimestamp t) now) by lia.
  destruct (nanos (nextFrameTimestamp t) - nanos now <=? 0) eqn:Hle.
  2:{ apply Z.leb_gt in Hle. lia. }
  rewrite Z.mul_1_r.
  rewrite (to_int64_small (nanos (nextFrameTimestamp t) - nanos now)) by lia.
  rewrite (to_int64_small ((nanos (nextFrameTimestamp t) - nanos now) * -1)) by lia.
  rewrite (to_int64_small AverageBlockGenerationTimeRange) by lia.
  set (target := TimeAdd (TimeAdd now' AverageBlockGenerationTimeRange)
                         ((nanos (nextFrameTimestamp t) - nanos now) * -1)).
  assert (Htarget : nanos target
                    = nanos now' + AverageBlockGenerationTimeRange
                      + (nanos now - nanos (nextFrameTimestamp t))).
  { subst target. rewrite !nanos_TimeAdd. lia. }
  cbn [nextFrameTimestamp set_nextFrameTimestamp].
  rewrite (Sub_nanos target now'') by lia.
  destruct (nanos target - nanos now'' <=? 0) eqn:Hle2.
  { apply Z.leb_le in Hle2. lia. }
  eexists. split; [|split; [|split]].
  - do 3 f_equal. lia.
  - lia.
  - exact Htarget.
  - reflexivity.
Qed.

(** X15.  With no response collected, synchronisation falls back to
    frame index 0 and schedules the next frame one block-generation
    interval after the clock reading of [setNextTick]; the first tick
    then produces frame 1. *)
Theorem syncWithOtherObservers_without_responses
    (t : Timer) (now now' : Time) (receiverReady : bool) :
  IncomingResponsesTimeFrame t = [] ->
  - 2 ^ 63 <= AverageBlockGenerationTimeRange < 2 ^ 63 ->
  exists t0,
    syncWithOtherObservers t now now' = Return t0 /\
    frame t0 = mkEvent 0 None /\
    nanos (nextFrameTimestamp t0)
    = nanos now' + AverageBlockGenerationTimeRange /\
    isTickerRunning t0 = isTickerRunning t /\
    run_ticks t0 [receiverReady] = [1].
Proof.
  intros Hempty Havg. unfold syncWithOtherObservers, processMajorityOfFrameResponses.
  rewrite Hempty. simpl. eexists. split; [reflexivity|].
  simpl. repeat split.
  rewrite nanos_TimeAdd, to_int64_small by lia. reflexivity.
Qed.

Lemma sum_list_between (l : list Z) (lo hi : Z) :
  Forall (fun x => lo <= x <= hi) l ->
  Z.of_nat (length l) * lo <= sum_list l <= Z.of_nat (length l) * hi.
Proof.
  induction 1 as [|x l Hx _ IH]; [simpl; lia|].
  unfold sum_list in *. simpl foldr. simpl length. lia.
Qed.

(** X25.  [processMajorityAndCalculateAverageNextFrameTTL] returns 0 for
    no offset at all; for offsets whose sum fits 64 bits it returns a
    value between the smallest and the largest of them. *)
Theorem average_between_offsets (offsets : list Z) (lo hi : Z) :
  offsets <> [] ->
  0 <= lo ->
  Forall (fun x => lo <= x <= hi) offsets ->
  sum_list offsets < 2 ^ 64 ->
  processMajorityAndCalculateAverageNextFrameTTL [] = 0 /\
  lo <= processMajorityAndCalculateAverageNextFrameTTL offsets <= hi.
Proof.
  intros Hne Hlo Hall Hsum. split; [reflexivity|].
  pose proof (sum_list_between offsets lo hi Hall) as [Hl Hh].
  assert (Hn : 0 < Z.of_nat (length offsets)).
  { destruct offsets; [congruence|simpl; lia]. }
  rewrite average_of_offsets; [|exact Hne|].
  - unfold average. split.
    + apply Z.div_le_lower_bound; lia.
    + apply Z.div_le_upper_bound; lia.
  - split; [|exact Hsum]. nia.
Qed.

End Timer.

(** *** Concrete runs

    A block-generation interval of 60 s; four responses received at the
    instant the reduction runs, each announcing one second to the next
    frame: frame 5, frame 7, frame 7, frame 5. *)

Definition minute : Z := 60000000000.

Definition sync_instant : Time := mkTime 63900000045 0.

Definition tied_votes : list ResponseTimeFrame :=
  [ mkResponse 5 1000000000 sync_instant;
    mkResponse 7 1000000000 sync_instant;
    mkResponse 7 1000000000 sync_instant;
    mkResponse 5 1000000000 sync_instant ].

Definition tied_timer : Timer (Configuration := unit) :=
  mkTimer [] tied_votes zeroTime (mkTime 63900000045 0) false
          (mkEvent kInitialTimeFrameIndex None).



(** A response that announced no time left and has waited 61 s in the
    channel: its corrected offset is one second below zero; as a uint64
    it is close to 2^64, exceeds the interval, and the frame index is
    incremented. *)
Example late_response_wraps :
  let vote := mkResponse 5 0 (mkTime 63899999984 0) in
  let t : Timer (Configuration := unit) :=
    mkTimer [] [vote] zeroTime sync_instant false
            (mkEvent kInitialTimeFrameIndex None) in
  corrected_ns_left minute sync_instant vote = -1000000000 /\
  processMajorityOfFrameResponses minute t sync_instant
    = Return (set_IncomingResponsesTimeFrame t [],
              (2 ^ 64 - 1000000000, 6, 1, None)).
Proof. split; reflexivity. Qed.

(** C4, as the code behaves.  A timer that is not running yet and is in
    the middle of its synchronisation, fifteen seconds before a deadline
    that falls on a full minute, with room in its outgoing channel:
    the request is dropped without a response. *)
Theorem processTimeFrameRequest_silent_while_synchronising :
  let deadline := mkTime 63900000060 0 in
  let now := mkTime 63900000045 0 in
  let t : Timer (Configuration := unit) :=
    mkTimer [] [] zeroTime deadline false (mkEvent kInitialTimeFrameIndex None) in
  deadline <> zeroTime /\
  Sub deadline now = 15000000000 /\
  OutgoingResponsesTimeFrame t = [] /\
  processTimeFrameRequest minute t now = (t, None).
Proof.
  repeat split; try reflexivity. discriminate.
Qed.

(** A receiver that is not ready misses the frame: the events handed over
    are then not consecutive, while the frames themselves are. *)
Example delivered_frames_with_busy_receiver :
  let t : Timer (Configuration := unit) :=
    mkTimer [] [] zeroTime zeroTime true (mkEvent 0 None) in
  run_ticks t [true; false; true] = [1; 2; 3] /\
  delivered_frames t [true; false; true] = [1; 3].
Proof. split; reflexivity. Qed.

(** A running timer at frame 1023 whose target was missed by two
    seconds. *)
Definition late_timer : Timer (Configuration := unit) :=
  mkTimer [] [] (mkTime 63900000043 0) (mkTime 63900000000 0) true
          (mkEvent 1023 None).

Lemma processMajorityOfFrameResponses_drains_witness :
  exists t' offset index err,
    processMajorityOfFrameResponses minute tied_timer sync_instant
    = Return (t', (offset, index, 4, err)) /\
    IncomingResponsesTimeFrame t' = [] /\
    (err = Some ErrEmptySequence <-> tied_votes = []) /\
    (err = None <-> tied_votes <> []) /\
    (tied_votes = [] -> t' = tied_timer).
Proof.
  apply (processMajorityOfFrameResponses_drains minute tied_timer sync_instant).
  vm_compute. discriminate.
Defined.

Lemma processTimeFrameRequest_answers_witness :
  (OutgoingResponsesTimeFrame late_timer = [] ->
   processTimeFrameRequest minute late_timer sync_instant =
     (set_OutgoingResponsesTimeFrame late_timer
        [mkResponse
           (if Index (frame late_timer) =? kInitialTimeFrameIndex then 0
            else Index (frame late_timer))
           ((minute + Sub (synchronisationDeadlineTimestamp late_timer) sync_instant)
              mod 2 ^ 64)
           zeroTime],
      None)) /\
  (OutgoingResponsesTimeFrame late_timer <> [] ->
   processTimeFrameRequest minute late_timer sync_instant
   = (late_timer, Some ErrChannelTransferringFailed)).
Proof.
  apply (processTimeFrameRequest_answers minute late_timer sync_instant).
  left. reflexivity.
Defined.

Lemma processInternalEvent_starts_ticker_witness :
  (processInternalEvent tied_timer EventTickerStarted).2 = None /\
  isTickerRunning (processInternalEvent tied_timer EventTickerStarted).1 = true /\
  (exists response,
     processTimeFrameRequest minute
       (processInternalEvent tied_timer EventTickerStarted).1 sync_instant
     = (set_OutgoingResponsesTimeFrame
          (processInternalEvent tied_timer EventTickerStarted).1 [response], None) /\
     FrameIndex response
     = (if Index (frame tied_timer) =? kInitialTimeFrameIndex then 0
        else Index (frame tied_timer))) /\
  processInternalEvent tied_timer OtherEvent = (tied_timer, Some NilParameter).
Proof.
  apply (processInternalEvent_starts_ticker minute tied_timer sync_instant).
  reflexivity.
Defined.

Lemma run_ticks_closed_form_witness :
  run_ticks late_timer (replicate 1024 true) !! 1023%nat
  = Some ((1023 + Z.of_nat 1023 + 1) mod ObserversMaxCount) /\
  (Z.of_nat 1023 + 1 = ObserversMaxCount ->
   run_ticks late_timer (replicate 1024 true) !! 1023%nat = Some 1023).
Proof.
  apply (run_ticks_closed_form (replicate 1024 true) late_timer 1023).
  - vm_compute. split; [discriminate|reflexivity].
  - rewrite length_replicate. lia.
Defined.

Lemma nextFrameTimeLeft_catches_up_witness :
  exists t',
    nextFrameTimeLeft minute
      [sync_instant; sync_instant; mkTime 63900000045 5000] late_timer
    = Some (t', minute + 2000000000 - 5000, []) /\
    0 < minute + 2000000000 - 5000 /\
    nanos (nextFrameTimestamp t') = nanos sync_instant + minute + 2000000000 /\
    frame t' = frame late_timer.
Proof.
  apply (nextFrameTimeLeft_catches_up minute late_timer
           sync_instant sync_instant (mkTime 63900000045 5000) []);
    vm_compute; try split; try reflexivity; discriminate.
Defined.

Lemma syncWithOtherObservers_without_responses_witness :
  exists t0,
    syncWithOtherObservers minute late_timer sync_instant sync_instant = Return t0 /\
    frame t0 = mkEvent 0 None /\
    nanos (nextFrameTimestamp t0) = nanos sync_instant + minute /\
    isTickerRunning t0 = isTickerRunning late_timer /\
    run_ticks t0 [true] = [1].
Proof.
  apply (syncWithOtherObservers_without_responses minute late_timer
           sync_instant sync_instant true).
  - reflexivity.
  - vm_compute. split; [discriminate|reflexivity].
Defined.

Lemma average_between_offsets_witness :
  processMajorityAndCalculateAverageNextFrameTTL [] = 0 /\
  10 <= processMajorityAndCalculateAverageNextFrameTTL [10; 13; 20] <= 20.
Proof.
  apply (average_between_offsets [10; 13; 20] 10 20).
  - discriminate.
  - lia.
  - repeat constructor; lia.
  - vm_compute. reflexivity.
Defined.

(** C8, counterexample.  A timer synchronised without responses starts
    at frame 0; of three ticks the second finds no receiver ready.  The
    frames are 1, 2, 3, the indices emitted are 1 and 3: the second one
    is not the first one plus one. *)
Lemma emitted_frames_skip_dropped_tick :
  match syncWithOtherObservers minute late_timer sync_instant sync_instant with
  | Return t0 =>
      Index (frame t0) = 0 /\
      run_ticks t0 [true; false; true] = [1; 2; 3] /\
      delivered_frames t0 [true; false; true] = [1; 3] /\
      3 <> (1 + 1) mod ObserversMaxCount /\
      ~ consecutive_frames (Index (frame t0))
          (delivered_frames t0 [true; false; true])
  | Panic => False
  end.
Proof.
  simpl. repeat split; try discriminate.
  intros (_ & Hskip & _). discriminate Hskip.
Qed.

End timer.

(** ** Claims and their binary form (core/geo) *)

Module geo.

(** *** Go slices

    A slice is a window on a backing array: [backing] is the array from
    the first element of the slice to the end of its capacity, [len] the
    length of the slice.  The slice expression [s[lo:hi]] is in range as
    long as [0 <= lo <= hi <= cap(s)] and panics otherwise. *)

Record slice : Set := mkSlice { backing : bytes; len : nat }.

Definition cap (s : slice) : nat := length (backing s).

Definition contents (s : slice) : bytes := take (len s) (backing s).

(** A slice that fills its backing array, as a literal or the result of
    reading exactly that many bytes. *)
Definition of_bytes (b : bytes) : slice := mkSlice b (length b).

Definition reslice (s : slice) (lo hi : Z) : outcome slice :=
  if (0 <=? lo) && (lo <=? hi) && (hi <=? Z.of_nat (cap s))
  then Return (mkSlice (drop (Z.to_nat lo) (backing s)) (Z.to_nat (hi - lo)))
  else Panic.

(** *** Package utils and the sizes of package common

    Modelled from the spec: the packages [utils] and [common] are not part
    of the sources at hand.  The codec is little-endian; the inverses
    fail with [InvalidDataFormat] on short input; [ChainByteSlices]
    concatenates its arguments. *)

Definition Uint16ByteSize : Z := 2.
Definition Uint32ByteSize : Z := 4.

Definition MarshalUint16 (v : Z) : bytes :=
  [v mod 256; v / 256 mod 256].

Definition MarshalUint32 (v : Z) : bytes :=
  [v mod 256; v / 256 mod 256; v / 65536 mod 256; v / 16777216 mod 256].

Definition UnmarshalUint16 (data : bytes) : result Z :=
  match data with
  | b0 :: b1 :: _ => Ok (b0 + 256 * b1)
  | _ => Err InvalidDataFormat
  end.

Definition UnmarshalUint32 (data : bytes) : result Z :=
  match data with
  | b0 :: b1 :: b2 :: b3 :: _ =>
      Ok (b0 + 256 * b1 + 65536 * b2 + 16777216 * b3)
  | _ => Err InvalidDataFormat
  end.

Definition ChainByteSlices (slices : list bytes) : bytes := concat slices.

(** Modelled from the spec: [transactions.TxIDBinarySize]; a TxID is a
    fixed-width identifier of 16 bytes. *)
Definition TxIDBinarySize : Z := 16.

Definition ClaimsMaxCount : Z := 1024 * 16.

(** [bytes.Compare] of Go's library: the lexicographic comparison of two
    byte strings, -1, 0 or 1. *)
Fixpoint Compare (a b : bytes) : Z :=
  match a, b with
  | [], [] => 0
  | [], _ :: _ => -1
  | _ :: _, [] => 1
  | x :: a', y :: b' =>
      if x <? y then -1 else if y <? x then 1 else Compare a' b'
  end.

(** Lexicographic order on byte strings. *)
Inductive lex_le : bytes -> bytes -> Prop :=
| lex_le_nil (b : bytes) : lex_le [] b
| lex_le_lt (x y : byte) (a b : bytes) : x < y -> lex_le (x :: a) (y :: b)
| lex_le_eq (x : byte) (a b : bytes) : lex_le a b -> lex_le (x :: a) (x :: b).

Section Codec.

(** The types [transactions.TxID] and [ClaimMembers] with their binary
    codecs, declared outside the sources at hand.  An [UnmarshalBinary]
    method fills its receiver; here it returns the value read. *)
Context {TxID ClaimMembers : Type}.
Variable TxID_MarshalBinary : TxID -> result bytes.
Variable TxID_UnmarshalBinary : bytes -> result TxID.
Variable NewEmptyTxID : TxID.
Variable ClaimMembers_MarshalBinary : ClaimMembers -> result bytes.
Variable ClaimMembers_UnmarshalBinary : bytes -> result ClaimMembers.
Variable emptyClaimMembers : ClaimMembers.
Variable ClaimMembersMinBinarySize : Z.

Definition ClaimMinBinarySize : Z := TxIDBinarySize + ClaimMembersMinBinarySize.

(** Both fields are pointers and may be nil. *)
Record Claim : Type := mkClaim {
  TxUUID : option TxID;
  Members : option ClaimMembers
}.

Definition NewClaim : Claim := mkClaim (Some NewEmptyTxID) (Some emptyClaimMembers).

Definition Claim_MarshalBinary (claim : Claim) : result bytes :=
  match TxUUID claim, Members claim with
  | Some txUUID, Some members =>
      match TxID_MarshalBinary txUUID with
      | Err e => Err e
      | Ok txIDBinary =>
          match ClaimMembers_MarshalBinary members with
          | Err e => Err e
          | Ok membersBinary => Ok (ChainByteSlices [txIDBinary; membersBinary])
          end
      end
  | _, _ => Err NilInternalDataStructure
  end.

(** [Claim.UnmarshalBinary]: the claim read, or the error. *)
Definition Claim_UnmarshalBinary (data : slice) : outcome (result Claim) :=
  if Z.of_nat (len data) <? ClaimMinBinarySize
  then Return (Err InvalidDataFormat)
  else
    call txData <- reslice data 0 TxIDBinarySize;
    match TxID_UnmarshalBinary (contents txData) with
    | Err e => Return (Err e)
    | Ok txUUID =>
        call membersData <- reslice data TxIDBinarySize (Z.of_nat (len data));
        match ClaimMembers_UnmarshalBinary (contents membersData) with
        | Err e => Return (Err e)
        | Ok members => Return (Ok (mkClaim (Some txUUID) (Some members)))
        end
    end.

(** [Claims.At]; the elements are the claims the pointers refer to. *)
Definition Claims : Type := list Claim.

Definition Count (c : Claims) : Z := to_uint16 (Z.of_nat (length c)).

Definition Claims_Add (c : Claims) (claim : option Claim) : Claims * option error :=
  match claim with
  | None => (c, Some NilParameter)
  | Some claim =>
      if Count c <? ClaimsMaxCount then (c ++ [claim], None)
      else (c, Some MaxCountReached)
  end.

(** The loop of [Claims.MarshalBinary]: [data] receives the size fields,
    [claims] the bodies. *)
Fixpoint marshal_claims (At : list Claim) (data : bytes) (claims : list bytes)
    : result (bytes * list bytes) :=
  match At with
  | [] => Ok (data, claims)
  | claim :: rest =>
      match Claim_MarshalBinary claim with
      | Err e => Err e
      | Ok claimBinary =>
          if (length claimBinary =? 0)%nat
          then marshal_claims rest data claims
          else marshal_claims rest
                 (data ++ MarshalUint32 (to_uint32 (Z.of_nat (length claimBinary))))
                 (claims ++ [claimBinary])
      end
  end.

Definition Claims_MarshalBinary (c : Claims) : result bytes :=
  match marshal_claims c (MarshalUint16 (Count c)) [] with
  | Err e => Err e
  | Ok (data, claims) => Ok (data ++ ChainByteSlices claims)
  end.

(** The loop that reads the size fields: [n] iterations are left,
    [offset] is a uint32. *)
Fixpoint read_sizes (n : nat) (data : slice) (offset : Z) (claimsSizes : list Z)
    : outcome (result (list Z * Z)) :=
  match n with
  | O => Return (Ok (claimsSizes, offset))
  | S n' =>
      call field <- reslice data offset (to_uint32 (offset + Uint32ByteSize));
      match UnmarshalUint32 (contents field) with
      | Err e => Return (Err e)
      | Ok claimSize =>
          read_sizes n' data (to_uint32 (offset + Uint32ByteSize))
                     (claimsSizes ++ [claimSize])
      end
  end.

(** The loop that reads the bodies: [i] is the index of the claim being
    read, [At] the slice of claims being filled. *)
Fixpoint read_claims (claimsSizes : list Z) (data : slice) (offset : Z)
    (i : nat) (At : list Claim) : outcome (Claims * option error) :=
  match claimsSizes with
  | [] => Return (At, None)
  | claimSize :: rest =>
      call body <- reslice data offset (to_uint32 (offset + claimSize));
      call r <- Claim_UnmarshalBinary body;
      match r with
      | Err e => Return (At, Some e)
      | Ok claim =>
          read_claims rest data (to_uint32 (offset + claimSize)) (S i)
                      (<[i := claim]> At)
      end
  end.

(** [Claims.UnmarshalBinary]: the claims left in the receiver [c] and the
    error. *)
Definition Claims_UnmarshalBinary (c : Claims) (data : slice)
    : outcome (Claims * option error) :=
  call countData <- reslice data 0 Uint16ByteSize;
  match UnmarshalUint16 (contents countData) with
  | Err e => Return (c, Some e)
  | Ok count =>
      if count =? 0 then Return ([], None)
      else
        let At := replicate (Z.to_nat count) NewClaim in
        call r <- read_sizes (Z.to_nat count) data Uint16ByteSize [];
        match r with
        | Err e => Return (At, Some e)
        | Ok (claimsSizes, offset) => read_claims claimsSizes data offset 0 At
        end
  end.

(** The [less] function handed to [sort.Slice]: it panics with the error
    of a claim that does not marshal; [Err e] stands for that panic. *)
Definition less (a b : Claim) : result bool :=
  match Claim_MarshalBinary a with
  | Err e => Err e
  | Ok aBinaryData =>
      match Claim_MarshalBinary b with
      | Err e => Err e
      | Ok bBinaryData => Ok (Compare aBinaryData bBinaryData =? -1)
      end
  end.

(** [less] as the boolean the library receives when no call panics. *)
Definition less_bool (a b : Claim) : bool :=
  match less a b with
  | Ok r => r
  | Err _ => false
  end.

(** The error of the first claim of a slice that does not marshal. *)
Fixpoint first_marshal_error (At : list Claim) : option error :=
  match At with
  | [] => None
  | claim :: rest =>
      match Claim_MarshalBinary claim with
      | Err e => Some e
      | Ok _ => first_marshal_error rest
      end
  end.

(** What [sort.Slice] asks of [less] on the elements of the slice: a
    strict weak ordering. *)
Definition strict_weak_order_on (l : list Claim) (lt : Claim -> Claim -> bool)
    : Prop :=
  (forall x, x ∈ l -> lt x x = false) /\
  (forall x y z, x ∈ l -> y ∈ l -> z ∈ l ->
     lt x y = true -> lt y z = true -> lt x z = true) /\
  (forall x y z, x ∈ l -> y ∈ l -> z ∈ l ->
     lt x y = false -> lt y z = false -> lt x z = false).

(** What [sort.Slice] gives in return.  The library calls the [less] it
    is given, here [cmp], on pairs of elements of the slice; a call that
    panics ([Err e]) ends the sort with that panic.  When no call on
    elements of the slice panics and the answers [lt] are a strict weak
    ordering, the sort ends and the slice is rearranged so that no
    element is less than one before it. *)
Definition sorts
    (sort : (Claim -> Claim -> result bool) -> list Claim -> result (list Claim))
    : Prop :=
  forall (cmp : Claim -> Claim -> result bool) (lt : Claim -> Claim -> bool) l,
    (forall x y, x ∈ l -> y ∈ l -> cmp x y = Ok (lt x y)) ->
    strict_weak_order_on l lt ->
    exists l',
      sort cmp l = Ok l' /\
      Permutation l l' /\
      forall (i j : nat) x y,
        (i < j)%nat -> l' !! i = Some x -> l' !! j = Some y ->
        lt y x = false.

(** [Claims.Sort], over the library's [sort.Slice].  A panic of [less]
    unwinds the library's sort, is recovered by the deferred function and
    returned as the error: which comparison panics first, and so which
    error is returned, is decided by the order in which the library
    compares.  The order in which the claims are left after a panic is
    not modelled. *)
Definition Sort
    (sort_Slice : (Claim -> Claim -> result bool) -> list Claim
                  -> result (list Claim))
    (c : Claims) : result Claims :=
  sort_Slice less c.

(** *** Slices of a concatenation *)

Lemma reslice_window (pre x rest : bytes) (n : nat) :
  reslice (mkSlice (pre ++ x ++ rest) n)
          (Z.of_nat (length pre)) (Z.of_nat (length pre) + Z.of_nat (length x))
  = Return (mkSlice (x ++ rest) (length x)).
Proof.
  unfold reslice, cap. simpl backing.
  rewrite !length_app.
  assert (Hc : (0 <=? Z.of_nat (length pre))
               && (Z.of_nat (length pre)
                   <=? Z.of_nat (length pre) + Z.of_nat (length x))
               && (Z.of_nat (length pre) + Z.of_nat (length x)
                   <=? Z.of_nat (length pre + (length x + length rest))) = true).
  { rewrite !andb_true_iff, !Z.leb_le. lia. }
  rewrite Hc. rewrite Nat2Z.id, drop_app_length.
  do 2 f_equal. lia.
Qed.

Lemma contents_window (x rest : bytes) :
  contents (mkSlice (x ++ rest) (length x)) = x.
Proof. unfold contents. simpl. apply take_app_length. Qed.

(** *** The integer fields *)

Lemma UnmarshalUint16_MarshalUint16 (v : Z) (rest : bytes) :
  0 <= v < 2 ^ 16 -> UnmarshalUint16 (MarshalUint16 v ++ rest) = Ok v.
Proof.
  intros Hv. unfold MarshalUint16, UnmarshalUint16. simpl. f_equal.
  change (2 ^ 16) with 65536 in Hv. Z.to_euclidean_division_equations. lia.
Qed.

Lemma UnmarshalUint32_MarshalUint32 (v : Z) (rest : bytes) :
  0 <= v < 2 ^ 32 -> UnmarshalUint32 (MarshalUint32 v ++ rest) = Ok v.
Proof.
  intros Hv. unfold MarshalUint32, UnmarshalUint32. simpl. f_equal.
  change (2 ^ 32) with 4294967296 in Hv. Z.to_euclidean_division_equations. lia.
Qed.

(** *** Round trip of a claim *)

(** The laws of the two member codecs: a marshalled TxID has the fixed
    width and reads back; marshalled members read back. *)
Definition member_codecs_round_trip : Prop :=
  (forall tx b, TxID_MarshalBinary tx = Ok b ->
     Z.of_nat (length b) = TxIDBinarySize /\ TxID_UnmarshalBinary b = Ok tx) /\
  (forall m b, ClaimMembers_MarshalBinary m = Ok b ->
     ClaimMembers_UnmarshalBinary b = Ok m).

(** A claim with a non-nil TxID and non-nil members of at least the
    minimum size. *)
Definition well_formed (claim : Claim) : Prop :=
  exists tx m btx bm,
    claim = mkClaim (Some tx) (Some m) /\
    TxID_MarshalBinary tx = Ok btx /\
    ClaimMembers_MarshalBinary m = Ok bm /\
    ClaimMembersMinBinarySize <= Z.of_nat (length bm).

(** [b] is the binary form of [claim], and reading a slice that starts
    with it gives the claim back. *)
Definition encodes (claim : Claim) (b : bytes) : Prop :=
  Claim_MarshalBinary claim = Ok b /\
  b <> [] /\
  forall spare,
    Claim_UnmarshalBinary (mkSlice (b ++ spare) (length b)) = Return (Ok claim).

Lemma Claim_round_trip (claim : Claim) :
  member_codecs_round_trip -> well_formed claim -> exists b, encodes claim b.
Proof.
  intros [Htx Hmem] (tx & m & btx & bm & -> & Hbtx & Hbm & Hmin).
  destruct (Htx _ _ Hbtx) as [Hlen Hutx]. specialize (Hmem _ _ Hbm).
  unfold TxIDBinarySize in Hlen.
  exists (btx ++ bm). split; [|split].
  - unfold Claim_MarshalBinary. simpl. rewrite Hbtx, Hbm.
    unfold ChainByteSlices. simpl. rewrite app_nil_r. reflexivity.
  - destruct btx; [simpl in Hlen; lia|discriminate].
  - intros spare. unfold Claim_UnmarshalBinary. simpl len.
    assert (Hsize : (Z.of_nat (length (btx ++ bm)) <? ClaimMinBinarySize) = false).
    { apply Z.ltb_ge. unfold ClaimMinBinarySize, TxIDBinarySize.
      rewrite length_app. lia. }
    rewrite Hsize.
    rewrite <- app_assoc.
    pose proof (reslice_window [] btx (bm ++ spare) (length (btx ++ bm))) as Hw1.
    change (Z.of_nat (length [])) with 0 in Hw1.
    rewrite Hlen, Z.add_0_l, app_nil_l in Hw1. unfold TxIDBinarySize.
    rewrite Hw1. cbn [obind].
    rewrite contents_window, Hutx.
    pose proof (reslice_window btx bm spare (length (btx ++ bm))) as Hw2.
    rewrite Hlen in Hw2.
    assert (Hn : Z.of_nat (length (btx ++ bm)) = 16 + Z.of_nat (length bm)).
    { rewrite length_app. lia. }
    rewrite Hn, Hw2. cbn [obind].
    rewrite contents_window, Hmem. reflexivity.
Qed.

(** *** Round trip of a batch *)

(** The size fields of the bodies [bins]. *)
Definition size_fields (bins : list bytes) : bytes :=
  concat (map (fun b => MarshalUint32 (to_uint32 (Z.of_nat (length b)))) bins).

(** Bytes taken by the bodies [bins] in a batch, size field included. *)
Definition bodies_size (bins : list bytes) : Z :=
  sum_list (map (fun b => 4 + Z.of_nat (length b)) bins).

(** Size of the binary form of a batch: the count, and for every claim
    a size field and its body. *)
Definition binary_size (c : Claims) : Z :=
  2 + sum_list (map (fun claim =>
                       match Claim_MarshalBinary claim with
                       | Ok b => 4 + Z.of_nat (length b)
                       | Err _ => 0
                       end) c).

Lemma encodes_all (c : Claims) :
  member_codecs_round_trip -> Forall well_formed c ->
  exists bins, Forall2 encodes c bins.
Proof.
  intros Hlaws. induction 1 as [|claim c Hwf _ [bins IH]].
  - exists []. constructor.
  - destruct (Claim_round_trip claim Hlaws Hwf) as [b Hb].
    exists (b :: bins). constructor; assumption.
Qed.

Lemma binary_size_encodes (c : Claims) (bins : list bytes) :
  Forall2 encodes c bins -> binary_size c = 2 + bodies_size bins.
Proof.
  unfold binary_size, bodies_size. intros Henc. f_equal.
  induction Henc as [|claim b c bins [Hm _] _ IH]; [reflexivity|].
  unfold sum_list in *. simpl. rewrite Hm, IH. reflexivity.
Qed.

Lemma bodies_size_cons (b : bytes) (bins : list bytes) :
  bodies_size (b :: bins) = 4 + Z.of_nat (length b) + bodies_size bins.
Proof. reflexivity. Qed.

Lemma bodies_size_eq (bins : list bytes) :
  bodies_size bins
  = 4 * Z.of_nat (length bins) + Z.of_nat (length (concat bins)).
Proof.
  induction bins as [|b bins IH]; [reflexivity|].
  rewrite bodies_size_cons, IH. simpl. rewrite length_app. lia.
Qed.

Lemma marshal_claims_encodes (c : Claims) (bins : list bytes)
    (data : bytes) (claims : list bytes) :
  Forall2 encodes c bins ->
  marshal_claims c data claims = Ok (data ++ size_fields bins, claims ++ bins).
Proof.
  intros Henc. revert data claims.
  induction Henc as [|claim b c bins [Hm [Hne _]] _ IH]; intros data claims.
  - simpl. unfold size_fields. simpl. rewrite !app_nil_r. reflexivity.
  - simpl. rewrite Hm.
    destruct b as [|x b]; [congruence|]. simpl Nat.eqb. cbv iota.
    rewrite IH. unfold size_fields. cbn [map concat].
    rewrite <- !app_assoc. reflexivity.
Qed.

Lemma size_fields_length (bins : list bytes) :
  length (size_fields bins) = (4 * length bins)%nat.
Proof.
  unfold size_fields. induction bins as [|b bins IH]; [reflexivity|].
  cbn [map concat]. rewrite length_app, IH. simpl. lia.
Qed.

Lemma read_sizes_fields (bins : list bytes) (pre rest : bytes) (n : nat)
    (acc : list Z) :
  Z.of_nat (length pre) + bodies_size bins < 2 ^ 32 ->
  read_sizes (length bins) (mkSlice (pre ++ size_fields bins ++ rest) n)
             (Z.of_nat (length pre)) acc
  = Return (Ok (acc ++ map (fun b => Z.of_nat (length b)) bins,
                Z.of_nat (length pre) + 4 * Z.of_nat (length bins))).
Proof.
  revert pre acc. induction bins as [|b bins IH]; intros pre acc Hsize.
  - simpl. rewrite app_nil_r, Z.add_0_r. reflexivity.
  - pose proof (bodies_size_eq bins) as Hb.
    rewrite bodies_size_cons in Hsize.
    assert (Hoff : to_uint32 (Z.of_nat (length pre) + Uint32ByteSize)
                   = Z.of_nat (length pre) + 4).
    { unfold to_uint32, Uint32ByteSize. apply Z.mod_small. lia. }
    cbn [read_sizes length]. rewrite Hoff.
    unfold size_fields. cbn [map concat].
    fold (size_fields bins).
    rewrite <- (app_assoc (MarshalUint32 _)).
    pose proof (reslice_window pre
                  (MarshalUint32 (to_uint32 (Z.of_nat (length b))))
                  (size_fields bins ++ rest) n) as Hw.
    change (Z.of_nat (length (MarshalUint32 (to_uint32 (Z.of_nat (length b))))))
      with 4 in Hw.
    rewrite Hw. cbn [obind].
    change (length (MarshalUint32 (to_uint32 (Z.of_nat (length b))))) with 4%nat.
    assert (Hdec : UnmarshalUint32
                     (contents (mkSlice (MarshalUint32 (to_uint32 (Z.of_nat (length b)))
                                         ++ size_fields bins ++ rest) 4))
                   = Ok (Z.of_nat (length b))).
    { pose proof (contents_window
                    (MarshalUint32 (to_uint32 (Z.of_nat (length b))))
                    (size_fields bins ++ rest)) as Hc.
      change (length (MarshalUint32 (to_uint32 (Z.of_nat (length b))))) with 4%nat in Hc.
      rewrite Hc.
      assert (Hsmall : to_uint32 (Z.of_nat (length b)) = Z.of_nat (length b)).
      { unfold to_uint32. apply Z.mod_small. lia. }
      rewrite Hsmall.
      rewrite <- (app_nil_r (MarshalUint32 _)).
      apply UnmarshalUint32_MarshalUint32. lia. }
    rewrite Hdec.
    specialize (IH (pre ++ MarshalUint32 (to_uint32 (Z.of_nat (length b))))
                   (acc ++ [Z.of_nat (length b)])).
    rewrite length_app in IH.
    change (length (MarshalUint32 (to_uint32 (Z.of_nat (length b))))) with 4%nat in IH.
    rewrite Nat2Z.inj_add in IH. change (Z.of_nat 4) with 4 in IH.
    rewrite <- !app_assoc in IH.
    rewrite IH by lia.
    simpl map. do 3 f_equal. lia.
Qed.

Lemma read_claims_bodies (c : Claims) (bins : list bytes) :
  Forall2 encodes c bins ->
  forall (pre rest : bytes) (n : nat) (done pad : list Claim),
    Z.of_nat (length pre) + Z.of_nat (length (concat bins)) < 2 ^ 32 ->
    length pad = length c ->
    read_claims (map (fun b => Z.of_nat (length b)) bins)
                (mkSlice (pre ++ concat bins ++ rest) n)
                (Z.of_nat (length pre)) (length done) (done ++ pad)
    = Return (done ++ c, None).
Proof.
  induction 1 as [|claim b c bins [_ [_ Hread]] _ IH];
    intros pre rest n done pad Hsize Hpad.
  - destruct pad; [|discriminate]. reflexivity.
  - destruct pad as [|p0 pad]; [discriminate|].
    simpl concat in *. rewrite length_app in Hsize.
    cbn [read_claims map].
    assert (Hoff : to_uint32 (Z.of_nat (length pre) + Z.of_nat (length b))
                   = Z.of_nat (length pre) + Z.of_nat (length b)).
    { unfold to_uint32. apply Z.mod_small. lia. }
    rewrite Hoff, <- (app_assoc b).
    rewrite reslice_window. cbn [obind].
    rewrite Hread. cbn [obind].
    assert (Hins : <[length done := claim]> (done ++ p0 :: pad)
                   = (done ++ [claim]) ++ pad).
    { rewrite <- (Nat.add_0_r (length done)), insert_app_r.
      rewrite <- app_assoc. reflexivity. }
    rewrite Hins.
    specialize (IH (pre ++ b) rest n (done ++ [claim]) pad).
    rewrite !length_app in IH. simpl length in IH.
    rewrite Nat2Z.inj_add, <- (app_assoc pre b) in IH.
    replace (S (length done)) with (length done + 1)%nat by lia.
    rewrite IH.
    + rewrite <- app_assoc. reflexivity.
    + lia.
    + simpl in Hpad. lia.
Qed.

(** C6, as the code behaves.  Given member codecs that round-trip, a
    claim with a non-nil TxID and non-nil members of at least the minimum
    size marshals, and unmarshalling the bytes gives the claim back; a
    batch of at most [ClaimsMaxCount] such claims whose binary form, the
    count and for every claim a size field and its body, takes less than
    2^32 bytes marshals, and unmarshalling the bytes into any receiver
    leaves exactly the claims of the batch, with no error.  The size
    fields and the offsets of the reader are uint32: beyond that size
    they wrap.  Spare capacity behind the bytes does not matter. *)
Theorem codec_round_trip (claim : Claim) (c : Claims) :
  member_codecs_round_trip ->
  well_formed claim ->
  Forall well_formed c ->
  Z.of_nat (length c) <= ClaimsMaxCount ->
  binary_size c < 2 ^ 32 ->
  (exists b,
     Claim_MarshalBinary claim = Ok b /\
     forall spare,
       Claim_UnmarshalBinary (mkSlice (b ++ spare) (length b))
       = Return (Ok claim)) /\
  (exists data,
     Claims_MarshalBinary c = Ok data /\
     forall c0 spare,
       Claims_UnmarshalBinary c0 (mkSlice (data ++ spare) (length data))
       = Return (c, None)).
Proof.
  intros Hlaws Hclaim Hwf Hcount Hsize. split.
  { destruct (Claim_round_trip claim Hlaws Hclaim) as (b & Hm & _ & Hread).
    exists b. auto. }
  destruct (encodes_all c Hlaws Hwf) as [bins Henc].
  pose proof (Forall2_length _ _ _ Henc) as Hlen.
  rewrite (binary_size_encodes c bins Henc) in Hsize.
  pose proof (bodies_size_eq bins) as Hb.
  assert (HCount : Count c = Z.of_nat (length c)).
  { unfold Count. apply to_uint16_small. unfold ClaimsMaxCount in Hcount. lia. }
  exists (MarshalUint16 (Count c) ++ size_fields bins ++ concat bins). split.
  { unfold Claims_MarshalBinary.
    rewrite (marshal_claims_encodes c bins _ _ Henc).
    unfold ChainByteSlices. rewrite app_nil_l, <- app_assoc. reflexivity. }
  intros c0 spare. unfold Claims_UnmarshalBinary.
  rewrite <- !app_assoc.
  pose proof (reslice_window [] (MarshalUint16 (Count c))
                (size_fields bins ++ concat bins ++ spare)
                (length (MarshalUint16 (Count c) ++ size_fields bins ++ concat bins)))
    as Hw.
  change (Z.of_nat (length [])) with 0 in Hw.
  change (Z.of_nat (length (MarshalUint16 (Count c)))) with 2 in Hw.
  rewrite app_nil_l, Z.add_0_l in Hw. unfold Uint16ByteSize at 1.
  rewrite Hw. cbn [obind].
  change (length (MarshalUint16 (Count c))) with 2%nat.
  pose proof (contents_window (MarshalUint16 (Count c))
                (size_fields bins ++ concat bins ++ spare)) as Hc.
  change (length (MarshalUint16 (Count c))) with 2%nat in Hc.
  rewrite Hc, <- (app_nil_r (MarshalUint16 (Count c))).
  rewrite UnmarshalUint16_MarshalUint16
    by (rewrite HCount; unfold ClaimsMaxCount in Hcount; lia).
  rewrite app_nil_r.
  destruct (Count c =? 0) eqn:Hzero.
  { apply Z.eqb_eq in Hzero. rewrite HCount in Hzero.
    destruct c; [reflexivity|simpl in Hzero; lia]. }
  rewrite HCount, Nat2Z.id, Hlen.
  set (count := MarshalUint16 (Z.of_nat (length bins))).
  assert (Hcl : length count = 2%nat) by reflexivity.
  set (n := length (count ++ size_fields bins ++ concat bins)).
  pose proof (read_sizes_fields bins count (concat bins ++ spare) n []) as Hsizes.
  rewrite Hcl in Hsizes. change (Z.of_nat 2) with 2 in Hsizes.
  unfold Uint16ByteSize.
  rewrite Hsizes by lia. cbn [obind]. rewrite app_nil_l.
  pose proof (read_claims_bodies c bins Henc (count ++ size_fields bins) spare n
                [] (replicate (length bins) NewClaim)) as Hbodies.
  rewrite length_app, size_fields_length, Hcl in Hbodies.
  rewrite Nat2Z.inj_add, Nat2Z.inj_mul in Hbodies.
  change (Z.of_nat 2) with 2 in Hbodies. change (Z.of_nat 4) with 4 in Hbodies.
  rewrite <- app_assoc in Hbodies.
  simpl length in Hbodies. rewrite !app_nil_l in Hbodies.
  apply Hbodies.
  - lia.
  - rewrite length_replicate. lia.
Qed.

(** *** Truncated input *)

Lemma read_sizes_truncated (n : nat) (data : bytes) (l : nat)
    (offset : Z) (acc : list Z) :
  (0 < n)%nat ->
  0 <= offset ->
  Z.of_nat (length data) < offset + 4 * Z.of_nat n ->
  offset + 4 * Z.of_nat n < 2 ^ 32 ->
  read_sizes n (mkSlice data l) offset acc = Panic.
Proof.
  revert offset acc. induction n as [|n IH]; intros offset acc Hn Hoff Hshort Hfit;
    [lia|].
  cbn [read_sizes].
  assert (Hnext : to_uint32 (offset + Uint32ByteSize) = offset + 4).
  { unfold to_uint32, Uint32ByteSize. apply Z.mod_small. lia. }
  rewrite Hnext. unfold reslice, cap. cbn [backing].
  destruct (offset + 4 <=? Z.of_nat (length data)) eqn:Hin.
  2:{ rewrite andb_false_r. reflexivity. }
  apply Z.leb_le in Hin.
  assert (Hc : (0 <=? offset) && (offset <=? offset + 4) = true).
  { rewrite andb_true_iff, !Z.leb_le. lia. }
  rewrite Hc. cbn [andb obind]. unfold contents. cbn [backing len].
  replace (Z.to_nat (offset + 4 - offset)) with 4%nat by lia.
  assert (Hlen : length (take 4 (drop (Z.to_nat offset) data)) = 4%nat).
  { rewrite length_take, length_drop. lia. }
  destruct (take 4 (drop (Z.to_nat offset) data))
    as [|c0 [|c1 [|c2 [|c3 tl]]]]; try discriminate.
  cbn [UnmarshalUint32].
  apply IH; lia.
Qed.

(** C5, as the code behaves.  A batch held in a slice without spare
    capacity, whose count field declares [count] claims and whose
    remaining bytes are too few for [count] size fields (for instance
    count 2 with the second size field missing): the slice expression
    for the first missing size field is out of range and
    [Claims.UnmarshalBinary] panics instead of returning
    [InvalidDataFormat]. *)
Theorem Claims_UnmarshalBinary_truncated_panics
    (c0 : Claims) (count : Z) (rest : bytes) :
  0 < count < 2 ^ 16 ->
  Z.of_nat (length rest) < 4 * count ->
  Claims_UnmarshalBinary c0 (of_bytes (MarshalUint16 count ++ rest)) = Panic.
Proof.
  intros Hcount Hshort. unfold Claims_UnmarshalBinary, of_bytes.
  pose proof (reslice_window [] (MarshalUint16 count) (rest ++ [])
                (length (MarshalUint16 count ++ rest))) as Hw.
  change (Z.of_nat (length [])) with 0 in Hw.
  change (Z.of_nat (length (MarshalUint16 count))) with 2 in Hw.
  rewrite app_nil_l, app_nil_r, Z.add_0_l in Hw. unfold Uint16ByteSize at 1.
  rewrite Hw. cbn [obind].
  rewrite contents_window, <- (app_nil_r (MarshalUint16 count)).
  rewrite UnmarshalUint16_MarshalUint16 by lia.
  rewrite app_nil_r.
  destruct (count =? 0) eqn:Hzero; [apply Z.eqb_eq in Hzero; lia|].
  rewrite read_sizes_truncated; [reflexivity| | | |].
  - lia.
  - unfold Uint16ByteSize. lia.
  - rewrite length_app. change (length (MarshalUint16 count)) with 2%nat.
    unfold Uint16ByteSize. lia.
  - unfold Uint16ByteSize. change (2 ^ 16) with 65536 in Hcount. lia.
Qed.

(** The input of the scenario: count 2 and a single size field. *)
Example Claims_UnmarshalBinary_second_size_missing
    (c0 : Claims) (b0 b1 b2 b3 : byte) :
  Claims_UnmarshalBinary c0 (of_bytes [2; 0; b0; b1; b2; b3]) = Panic.
Proof. reflexivity. Qed.

(** Input shorter than the count field panics as well. *)
Lemma Claims_UnmarshalBinary_short_panics (c0 : Claims) :
  Claims_UnmarshalBinary c0 (of_bytes []) = Panic /\
  Claims_UnmarshalBinary c0 (of_bytes [2]) = Panic.
Proof. split; reflexivity. Qed.

(** With spare capacity behind the slice no panic occurs: the reader
    takes its size fields and bodies from beyond the length of the
    input. *)
Lemma reslice_beyond_length (b0 b1 b2 b3 : byte) (spare : bytes) :
  (4 <= length spare)%nat ->
  exists field,
    reslice (mkSlice ([2; 0; b0; b1; b2; b3] ++ spare) 6) 6 10 = Return field /\
    contents field = take 4 spare.
Proof.
  intros Hspare. unfold reslice, cap. cbn [backing].
  assert (Hc : (0 <=? 6) && (6 <=? 10)
               && (10 <=? Z.of_nat (length ([2; 0; b0; b1; b2; b3] ++ spare)))
               = true).
  { apply andb_true_iff. split; [reflexivity|].
    apply Z.leb_le. rewrite length_app, Nat2Z.inj_add.
    change (Z.of_nat (length [2; 0; b0; b1; b2; b3])) with 6. lia. }
  rewrite Hc. eexists. split; [reflexivity|]. reflexivity.
Qed.

(** *** Sorting *)

Lemma Compare_refl (a : bytes) : Compare a a = 0.
Proof.
  induction a as [|x a IH]; [reflexivity|].
  simpl. rewrite Z.ltb_irrefl. exact IH.
Qed.

Lemma Compare_antisym (a b : bytes) : Compare b a = - Compare a b.
Proof.
  revert b. induction a as [|x a IH]; intros [|y b]; simpl; try reflexivity.
  destruct (Z.ltb_spec x y), (Z.ltb_spec y x); try lia; try reflexivity.
  apply IH.
Qed.

Lemma Compare_lt_trans (a b c : bytes) :
  Compare a b = -1 -> Compare b c = -1 -> Compare a c = -1.
Proof.
  revert b c.
  induction a as [|x a IH]; intros [|y b] [|z c]; simpl; try congruence.
  destruct (Z.ltb_spec x y), (Z.ltb_spec y x), (Z.ltb_spec y z),
    (Z.ltb_spec z y), (Z.ltb_spec x z), (Z.ltb_spec z x);
    try lia; try congruence.
  apply IH.
Qed.

Lemma Compare_le_trans (a b c : bytes) :
  Compare a b <> 1 -> Compare b c <> 1 -> Compare a c <> 1.
Proof.
  revert b c.
  induction a as [|x a IH]; intros [|y b] [|z c]; simpl; try congruence.
  destruct (Z.ltb_spec x y), (Z.ltb_spec y x), (Z.ltb_spec y z),
    (Z.ltb_spec z y), (Z.ltb_spec x z), (Z.ltb_spec z x);
    try lia; try congruence.
  apply IH.
Qed.

Lemma Compare_lex_le (a b : bytes) : Compare a b <> 1 -> lex_le a b.
Proof.
  revert b. induction a as [|x a IH]; intros [|y b]; simpl; intros Hc.
  - constructor.
  - constructor.
  - congruence.
  - destruct (Z.ltb_spec x y) as [Hlt|Hge].
    + apply lex_le_lt, Hlt.
    + destruct (Z.ltb_spec y x) as [Hgt|Hle]; [congruence|].
      assert (x = y) as -> by lia.
      apply lex_le_eq, IH, Hc.
Qed.

Lemma less_bool_marshalled (a b : Claim) (x y : bytes) :
  Claim_MarshalBinary a = Ok x -> Claim_MarshalBinary b = Ok y ->
  less_bool a b = (Compare x y =? -1).
Proof. intros Ha Hb. unfold less_bool, less. rewrite Ha, Hb. reflexivity. Qed.

Lemma first_marshal_error_none (c : Claims) :
  Forall (fun claim => exists b, Claim_MarshalBinary claim = Ok b) c ->
  first_marshal_error c = None.
Proof.
  induction 1 as [|claim c [b Hb] _ IH]; [reflexivity|].
  simpl. rewrite Hb. exact IH.
Qed.

Lemma less_bool_strict_weak_order (c : Claims) :
  Forall (fun claim => exists b, Claim_MarshalBinary claim = Ok b) c ->
  strict_weak_order_on c less_bool.
Proof.
  intros Hall. rewrite Forall_forall in Hall.
  split; [|split].
  - intros x Hx. destruct (Hall x Hx) as [bx Hbx].
    rewrite (less_bool_marshalled _ _ _ _ Hbx Hbx), Compare_refl. reflexivity.
  - intros x y z Hx Hy Hz.
    destruct (Hall x Hx) as [bx Hbx], (Hall y Hy) as [by' Hby],
      (Hall z Hz) as [bz Hbz].
    rewrite (less_bool_marshalled _ _ _ _ Hbx Hby),
      (less_bool_marshalled _ _ _ _ Hby Hbz),
      (less_bool_marshalled _ _ _ _ Hbx Hbz), !Z.eqb_eq.
    apply Compare_lt_trans.
  - intros x y z Hx Hy Hz.
    destruct (Hall x Hx) as [bx Hbx], (Hall y Hy) as [by' Hby],
      (Hall z Hz) as [bz Hbz].
    rewrite (less_bool_marshalled _ _ _ _ Hbx Hby),
      (less_bool_marshalled _ _ _ _ Hby Hbz),
      (less_bool_marshalled _ _ _ _ Hbx Hbz), !Z.eqb_neq.
    intros Hxy Hyz Hxz.
    pose proof (Compare_antisym bx by') as H1.
    pose proof (Compare_antisym by' bz) as H2.
    pose proof (Compare_antisym bx bz) as H3.
    apply (Compare_le_trans bz by' bx); lia.
Qed.

Lemma less_marshalled (c : Claims) :
  Forall (fun claim => exists b, Claim_MarshalBinary claim = Ok b) c ->
  forall x y, x ∈ c -> y ∈ c -> less x y = Ok (less_bool x y).
Proof.
  intros Hall x y Hx Hy. rewrite Forall_forall in Hall.
  destruct (Hall x Hx) as [bx Hbx], (Hall y Hy) as [by' Hby].
  unfold less_bool, less. rewrite Hbx, Hby. reflexivity.
Qed.

(** C9.  Over a library sort that keeps its contract, on a batch whose
    claims all marshal, [Sort] returns without error a rearrangement of
    the batch in which, for all positions i < j, the binary form of the
    claim at i is lexicographically less than or equal to that of the
    claim at j. *)
Theorem Sort_orders_binary_forms
    (sort_Slice : (Claim -> Claim -> result bool) -> list Claim
                  -> result (list Claim))
    (c : Claims) :
  sorts sort_Slice ->
  Forall (fun claim => exists b, Claim_MarshalBinary claim = Ok b) c ->
  exists c',
    Sort sort_Slice c = Ok c' /\
    Permutation c c' /\
    forall (i j : nat) a b,
      (i < j)%nat -> c' !! i = Some a -> c' !! j = Some b ->
      exists x y,
        Claim_MarshalBinary a = Ok x /\ Claim_MarshalBinary b = Ok y /\
        lex_le x y.
Proof.
  intros Hsort Hall. unfold Sort.
  destruct (Hsort less less_bool c (less_marshalled c Hall)
                  (less_bool_strict_weak_order c Hall))
    as (c' & Hrun & Hperm & Hord).
  exists c'. split; [exact Hrun|]. split; [exact Hperm|].
  intros i j a b Hij Hi Hj.
  assert (Hall' : Forall (fun claim => exists b, Claim_MarshalBinary claim = Ok b) c').
  { eapply Permutation_Forall; [exact Hperm|exact Hall]. }
  rewrite Forall_forall in Hall'.
  destruct (Hall' a (list_elem_of_lookup_2 _ _ _ Hi)) as [x Hx].
  destruct (Hall' b (list_elem_of_lookup_2 _ _ _ Hj)) as [y Hy].
  exists x, y. split; [exact Hx|]. split; [exact Hy|].
  specialize (Hord i j a b Hij Hi Hj).
  rewrite (less_bool_marshalled _ _ _ _ Hy Hx) in Hord.
  apply Z.eqb_neq in Hord.
  apply Compare_lex_le.
  pose proof (Compare_antisym x y). lia.
Qed.

(** *** Further properties of claims and batches *)

(** A sequence of [Claims.Add] calls, errors ignored. *)
Definition add_all (c : Claims) (claims : list (option Claim)) : Claims :=
  fold_left (fun c claim => (Claims_Add c claim).1) claims c.

Lemma Claims_Add_keeps_bound (c : Claims) (claim : option Claim) :
  Z.of_nat (length c) <= ClaimsMaxCount ->
  Z.of_nat (length (Claims_Add c claim).1) <= ClaimsMaxCount.
Proof.
  intros Hlen. unfold Claims_Add. destruct claim as [claim|]; [|exact Hlen].
  assert (HCount : Count c = Z.of_nat (length c)).
  { unfold Count. apply to_uint16_small. unfold ClaimsMaxCount in Hlen. lia. }
  rewrite HCount.
  destruct (Z.of_nat (length c) <? ClaimsMaxCount) eqn:Hlt; [|exact Hlen].
  apply Z.ltb_lt in Hlt. simpl. rewrite length_app. simpl. lia.
Qed.

(** X16.  A batch built from the empty one by [Add] calls never holds
    more than [ClaimsMaxCount] claims; a nil claim is refused with
    [NilParameter], a claim offered to a batch of [ClaimsMaxCount] claims
    with [MaxCountReached], and a refused [Add] leaves the batch as it
    is. *)
Theorem Claims_Add_bounded (claims : list (option Claim)) :
  Z.of_nat (length (add_all [] claims)) <= ClaimsMaxCount /\
  (forall c, Claims_Add c None = (c, Some NilParameter)) /\
  (forall c claim, Z.of_nat (length c) = ClaimsMaxCount ->
     Claims_Add c (Some claim) = (c, Some MaxCountReached)) /\
  (forall c claim e, (Claims_Add c claim).2 = Some e -> (Claims_Add c claim).1 = c).
Proof.
  split; [|split; [|split]].
  - unfold add_all.
    assert (Hgen : forall c, Z.of_nat (length c) <= ClaimsMaxCount ->
              Z.of_nat (length (fold_left (fun c claim => (Claims_Add c claim).1)
                                          claims c)) <= ClaimsMaxCount).
    { induction claims as [|claim claims IH]; intros c Hc; simpl; [exact Hc|].
      apply IH, Claims_Add_keeps_bound, Hc. }
    apply Hgen. unfold ClaimsMaxCount. simpl. lia.
  - reflexivity.
  - intros c claim Hfull. unfold Claims_Add, Count.
    rewrite Hfull. reflexivity.
  - intros c claim e. unfold Claims_Add. destruct claim; [|reflexivity].
    destruct (Count c <? ClaimsMaxCount); [discriminate|reflexivity].
Qed.

Lemma marshal_claims_error (c : Claims) (data : list Z) (claims : list (list Z)) :
  match first_marshal_error c with
  | Some e => marshal_claims c data claims = Err e
  | None => exists r, marshal_claims c data claims = Ok r
  end.
Proof.
  revert data claims. induction c as [|claim c IH]; intros data claims; simpl.
  - eauto.
  - destruct (Claim_MarshalBinary claim) as [b|e]; [|reflexivity].
    destruct (length b =? 0)%nat; apply IH.
Qed.

(** X17.  [Claims.MarshalBinary] fails exactly when one of the claims
    fails to marshal, and then with the error of the first such claim of
    the batch. *)
Theorem Claims_MarshalBinary_error (c : Claims) (e : error) :
  Claims_MarshalBinary c = Err e <-> first_marshal_error c = Some e.
Proof.
  unfold Claims_MarshalBinary.
  pose proof (marshal_claims_error c (MarshalUint16 (Count c)) []) as Hm.
  destruct (first_marshal_error c) as [e0|].
  - rewrite Hm. split; congruence.
  - destruct Hm as [[d cl] ->]. split; discriminate.
Qed.

(** X18.  On a slice that lies within its backing array,
    [Claim.UnmarshalBinary] never panics, and it answers
    [InvalidDataFormat] to every input shorter than the minimum size of
    a claim. *)
Theorem Claim_UnmarshalBinary_safe (data : slice) :
  0 <= ClaimMembersMinBinarySize ->
  (len data <= cap data)%nat ->
  (exists r, Claim_UnmarshalBinary data = Return r) /\
  (Z.of_nat (len data) < ClaimMinBinarySize ->
   Claim_UnmarshalBinary data = Return (Err InvalidDataFormat)).
Proof.
  intros Hmin Hcap. unfold Claim_UnmarshalBinary.
  destruct (Z.of_nat (len data) <? ClaimMinBinarySize) eqn:Hshort.
  { split; [eauto|reflexivity]. }
  apply Z.ltb_ge in Hshort. unfold ClaimMinBinarySize, TxIDBinarySize in *.
  split; [|lia].
  unfold reslice.
  assert (H1 : (0 <=? 0) && (0 <=? 16) && (16 <=? Z.of_nat (cap data)) = true).
  { rewrite !andb_true_iff, !Z.leb_le. lia. }
  assert (H2 : (0 <=? 16) && (16 <=? Z.of_nat (len data))
               && (Z.of_nat (len data) <=? Z.of_nat (cap data)) = true).
  { rewrite !andb_true_iff, !Z.leb_le. lia. }
  rewrite H1, H2. cbn [obind].
  destruct (TxID_UnmarshalBinary _); [|eauto].
  destruct (ClaimMembers_UnmarshalBinary _); eauto.
Qed.

(** X19.  Under member codecs that round-trip, two well-formed claims
    with the same binary form are the same claim. *)
Theorem Claim_MarshalBinary_injective (a b : Claim) :
  member_codecs_round_trip ->
  well_formed a -> well_formed b ->
  Claim_MarshalBinary a = Claim_MarshalBinary b ->
  a = b.
Proof.
  intros Hlaws Ha Hb Heq.
  destruct (Claim_round_trip a Hlaws Ha) as (x & Hx & _ & Hrx).
  destruct (Claim_round_trip b Hlaws Hb) as (y & Hy & _ & Hry).
  assert (x = y) as -> by congruence.
  specialize (Hrx []). specialize (Hry []).
  congruence.
Qed.

Lemma read_sizes_length (n : nat) (data : slice) (offset : Z)
    (acc sizes : list Z) (offset' : Z) :
  read_sizes n data offset acc = Return (Ok (sizes, offset')) ->
  length sizes = (length acc + n)%nat.
Proof.
  revert offset acc. induction n as [|n IH]; intros offset acc Hread.
  - simpl in Hread. injection Hread as <- _. lia.
  - cbn [read_sizes] in Hread.
    destruct (reslice data offset (to_uint32 (offset + Uint32ByteSize)));
      [|discriminate].
    cbn [obind] in Hread.
    destruct (UnmarshalUint32 _); [|discriminate].
    apply IH in Hread. rewrite length_app in Hread. simpl in Hread. lia.
Qed.

Lemma read_claims_length (sizes : list Z) (data : slice) (offset : Z)
    (i : nat) (At c' : list Claim) (err : option error) :
  read_claims sizes data offset i At = Return (c', err) ->
  length c' = length At.
Proof.
  revert offset i At. induction sizes as [|size sizes IH]; intros offset i At Hread.
  - simpl in Hread. injection Hread as <- _. reflexivity.
  - cbn [read_claims] in Hread.
    destruct (reslice data offset (to_uint32 (offset + size))); [|discriminate].
    cbn [obind] in Hread.
    destruct (Claim_UnmarshalBinary _) as [[claim|e]|]; cbn [obind] in Hread.
    + apply IH in Hread. rewrite length_insert in Hread. exact Hread.
    + injection Hread as <- _. reflexivity.
    + discriminate.
Qed.

(** X20.  Whenever [Claims.UnmarshalBinary] returns after it has read the
    count field, with or without an error, the receiver holds exactly as
    many claims as the count field declares, whatever it held before. *)
Theorem Claims_UnmarshalBinary_count
    (c0 c' : Claims) (data countData : slice) (count : Z) (err : option error) :
  reslice data 0 Uint16ByteSize = Return countData ->
  UnmarshalUint16 (contents countData) = Ok count ->
  Claims_UnmarshalBinary c0 data = Return (c', err) ->
  length c' = Z.to_nat count.
Proof.
  intros Hhdr Hcount Hrun. unfold Claims_UnmarshalBinary in Hrun.
  rewrite Hhdr in Hrun. cbn [obind] in Hrun. rewrite Hcount in Hrun.
  destruct (count =? 0) eqn:Hz.
  { apply Z.eqb_eq in Hz. injection Hrun as <- _. rewrite Hz. reflexivity. }
  destruct (read_sizes (Z.to_nat count) data Uint16ByteSize [])
    as [[[sizes offset]|e]|] eqn:Hsizes; cbn [obind] in Hrun.
  - apply read_claims_length in Hrun. rewrite Hrun. apply length_replicate.
  - injection Hrun as <- _. apply length_replicate.
  - discriminate.
Qed.

End Codec.

(** *** A sort that keeps the contract of [sort.Slice]

    Insertion sort as the library applies it to short slices: the
    elements are taken from left to right, and the element at position j
    moves one place to the left as long as [less(data[j], data[j-1])]
    holds. *)

Section InsertionSort.

Context {A : Type}.
Variable cmp : A -> A -> result bool.

(** [x] moves to the left through [before], the elements on its left,
    the nearest one first. *)
Fixpoint sink (x : A) (before : list A) : result (list A) :=
  match before with
  | [] => Ok [x]
  | y :: rest =>
      match cmp x y with
      | Err e => Err e
      | Ok false => Ok (x :: y :: rest)
      | Ok true =>
          match sink x rest with
          | Err e => Err e
          | Ok r => Ok (y :: r)
          end
      end
  end.

Fixpoint insertion_loop (todo before : list A) : result (list A) :=
  match todo with
  | [] => Ok (rev before)
  | x :: todo' =>
      match sink x before with
      | Err e => Err e
      | Ok before' => insertion_loop todo' before'
      end
  end.

Definition insertion_sort (l : list A) : result (list A) := insertion_loop l [].

Section Ordered.

Variable lt : A -> A -> bool.
Variable dom : A -> Prop.
Hypothesis cmp_lt : forall x y, dom x -> dom y -> cmp x y = Ok (lt x y).
Hypothesis lt_irrefl : forall x, dom x -> lt x x = false.
Hypothesis lt_trans : forall x y z, dom x -> dom y -> dom z ->
  lt x y = true -> lt y z = true -> lt x z = true.
Hypothesis lt_incomparable : forall x y z, dom x -> dom y -> dom z ->
  lt x y = false -> lt y z = false -> lt x z = false.

(** [a] is not less than [b]: [a] may stand after [b]. *)
Definition not_before (a b : A) : Prop := lt a b = false.

Lemma sink_sorted (x : A) (before : list A) :
  dom x -> Forall dom before -> StronglySorted not_before before ->
  exists r,
    sink x before = Ok r /\
    Permutation (x :: before) r /\
    StronglySorted not_before r.
Proof.
  intros Hx Hdom Hs. induction Hs as [|y rest Hs IH Hy]; simpl.
  - exists [x]. split; [reflexivity|]. split; [reflexivity|].
    repeat constructor.
  - apply Forall_cons_1 in Hdom as [Hdy Hdrest].
    rewrite (cmp_lt x y Hx Hdy).
    destruct (lt x y) eqn:Hxy.
    + destruct (IH Hdrest) as (r & -> & Hperm & Hr).
      exists (y :: r). split; [reflexivity|]. split.
      * rewrite perm_swap. apply perm_skip, Hperm.
      * constructor; [exact Hr|].
        eapply Permutation_Forall; [exact Hperm|].
        constructor; [|exact Hy].
        unfold not_before. destruct (lt y x) eqn:Hyx; [|reflexivity].
        rewrite <- (lt_irrefl x Hx). symmetry.
        apply (lt_trans x y x); assumption.
    + exists (x :: y :: rest). split; [reflexivity|]. split; [reflexivity|].
      constructor; [constructor; assumption|].
      constructor; [exact Hxy|].
      rewrite Forall_forall in Hy, Hdrest. apply Forall_forall. intros z Hz.
      apply (lt_incomparable x y z); auto. apply Hy, Hz.
Qed.

Lemma StronglySorted_rev (R : A -> A -> Prop) (l : list A) :
  StronglySorted R l -> StronglySorted (fun a b => R b a) (rev l).
Proof.
  induction 1 as [|a l Hs IH Ha]; simpl; [constructor|].
  apply StronglySorted_app_2.
  - intros x1 x2 H1 H2. apply list_elem_of_singleton in H2 as ->.
    rewrite Forall_forall in Ha. apply Ha.
    apply list_elem_of_In, in_rev, list_elem_of_In, H1.
  - exact IH.
  - repeat constructor.
Qed.

Lemma insertion_loop_sorted (todo before : list A) :
  Forall dom todo -> Forall dom before -> StronglySorted not_before before ->
  exists l',
    insertion_loop todo before = Ok l' /\
    Permutation (rev before ++ todo) l' /\
    StronglySorted (fun a b => lt b a = false) l'.
Proof.
  revert before. induction todo as [|x todo IH]; intros before Htodo Hdom Hs; simpl.
  - exists (rev before). split; [reflexivity|]. split.
    + rewrite app_nil_r. reflexivity.
    + apply (StronglySorted_rev not_before), Hs.
  - apply Forall_cons_1 in Htodo as [Hx Htodo].
    destruct (sink_sorted x before Hx Hdom Hs) as (r & -> & Hperm & Hr).
    destruct (IH r Htodo) as (l' & Hrun & Hperm' & Hsorted).
    + eapply Permutation_Forall; [exact Hperm|]. constructor; assumption.
    + exact Hr.
    + exists l'. split; [exact Hrun|]. split; [|exact Hsorted].
      etransitivity; [|exact Hperm'].
      rewrite <- Permutation_middle.
      rewrite <- (Permutation_rev before), <- (Permutation_rev r).
      change (x :: before ++ todo) with ((x :: before) ++ todo).
      rewrite Hperm. reflexivity.
Qed.

End Ordered.

Lemma StronglySorted_lookup (R : A -> A -> Prop) (l : list A) :
  StronglySorted R l ->
  forall (i j : nat) x y,
    (i < j)%nat -> l !! i = Some x -> l !! j = Some y -> R x y.
Proof.
  induction 1 as [|a l Hs IH Ha]; intros i j x y Hij Hi Hj.
  - rewrite lookup_nil in Hi. discriminate.
  - destruct j as [|j]; [lia|]. simpl in Hj.
    destruct i as [|i].
    + simpl in Hi. injection Hi as <-.
      rewrite Forall_forall in Ha. apply Ha.
      apply (list_elem_of_lookup_2 _ _ _ Hj).
    + simpl in Hi. apply (IH i j); [lia|assumption|assumption].
Qed.

End InsertionSort.

Lemma insertion_sort_sorts {TxID ClaimMembers : Type} :
  sorts (TxID := TxID) (ClaimMembers := ClaimMembers)
        (fun cmp l => insertion_sort cmp l).
Proof.
  intros cmp lt l Hcmp (Hirr & Htrans & Hinc).
  assert (Hdom : Forall (fun x => x ∈ l) l) by (apply Forall_forall; auto).
  destruct (insertion_loop_sorted cmp lt (fun x => x ∈ l) Hcmp Hirr Htrans Hinc
              l [] Hdom ltac:(constructor) ltac:(constructor))
    as (l' & Hrun & Hperm & Hsorted).
  exists l'. split; [exact Hrun|]. split; [exact Hperm|].
  intros i j x y Hij Hi Hj.
  exact (StronglySorted_lookup _ _ Hsorted i j x y Hij Hi Hj).
Qed.

(** *** Concrete member codecs

    A TxID is its 16 bytes; members are a non-empty byte string. *)

Definition raw_TxID_MarshalBinary (tx : bytes) : result bytes :=
  if (length tx =? 16)%nat then Ok tx else Err InvalidDataFormat.

Definition raw_TxID_UnmarshalBinary (b : bytes) : result bytes :=
  if (length b =? 16)%nat then Ok b else Err InvalidDataFormat.

Definition raw_Members_MarshalBinary (m : bytes) : result bytes :=
  match m with
  | [] => Err InvalidDataFormat
  | _ => Ok m
  end.

Definition raw_Members_UnmarshalBinary (b : bytes) : result bytes :=
  match b with
  | [] => Err InvalidDataFormat
  | _ => Ok b
  end.

Definition raw_Claim_MarshalBinary :=
  Claim_MarshalBinary raw_TxID_MarshalBinary raw_Members_MarshalBinary.

Definition raw_Claim_UnmarshalBinary :=
  Claim_UnmarshalBinary raw_TxID_UnmarshalBinary raw_Members_UnmarshalBinary 1.

Definition raw_Claims_MarshalBinary :=
  Claims_MarshalBinary raw_TxID_MarshalBinary raw_Members_MarshalBinary.

Definition raw_Claims_UnmarshalBinary :=
  Claims_UnmarshalBinary raw_TxID_UnmarshalBinary (replicate 16 0)
                         raw_Members_UnmarshalBinary [0] 1.

Definition raw_Sort :=
  Sort raw_TxID_MarshalBinary raw_Members_MarshalBinary
       (fun cmp l => insertion_sort cmp l).

(** Two claims: TxID 0x01..01 with the member 9, TxID 0x00..00 with the
    members 7 and 8. *)
Definition claim_a : Claim := mkClaim (Some (replicate 16 1)) (Some [9]).
Definition claim_b : Claim := mkClaim (Some (replicate 16 0)) (Some [7; 8]).

Lemma raw_codecs_round_trip :
  member_codecs_round_trip raw_TxID_MarshalBinary raw_TxID_UnmarshalBinary
                           raw_Members_MarshalBinary raw_Members_UnmarshalBinary.
Proof.
  split.
  - intros tx b. unfold raw_TxID_MarshalBinary, raw_TxID_UnmarshalBinary.
    destruct (length tx =? 16)%nat eqn:Hlen; [|discriminate].
    intros [= <-]. rewrite Hlen. apply Nat.eqb_eq in Hlen.
    rewrite Hlen. split; reflexivity.
  - intros m b. unfold raw_Members_MarshalBinary, raw_Members_UnmarshalBinary.
    destruct m; [discriminate|]. intros [= <-]. reflexivity.
Qed.

Lemma raw_well_formed_a :
  well_formed raw_TxID_MarshalBinary raw_Members_MarshalBinary 1 claim_a.
Proof.
  exists (replicate 16 1), [9], (replicate 16 1), [9].
  repeat split. simpl. lia.
Qed.

Lemma raw_well_formed_b :
  well_formed raw_TxID_MarshalBinary raw_Members_MarshalBinary 1 claim_b.
Proof.
  exists (replicate 16 0), [7; 8], (replicate 16 0), [7; 8].
  repeat split. simpl. lia.
Qed.

Lemma codec_round_trip_witness :
  (exists b,
     raw_Claim_MarshalBinary claim_a = Ok b /\
     forall spare,
       raw_Claim_UnmarshalBinary (mkSlice (b ++ spare) (length b))
       = Return (Ok claim_a)) /\
  (exists data,
     raw_Claims_MarshalBinary [claim_a; claim_b] = Ok data /\
     forall c0 spare,
       raw_Claims_UnmarshalBinary c0 (mkSlice (data ++ spare) (length data))
       = Return ([claim_a; claim_b], None)).
Proof.
  apply (codec_round_trip raw_TxID_MarshalBinary raw_TxID_UnmarshalBinary
           (replicate 16 0) raw_Members_MarshalBinary raw_Members_UnmarshalBinary
           [0] 1 claim_a [claim_a; claim_b]).
  - exact raw_codecs_round_trip.
  - exact raw_well_formed_a.
  - repeat constructor; [exact raw_well_formed_a|exact raw_well_formed_b].
  - vm_compute. discriminate.
  - vm_compute. reflexivity.
Defined.

Lemma Sort_orders_binary_forms_witness :
  exists c',
    raw_Sort [claim_a; claim_b] = Ok c' /\
    Permutation [claim_a; claim_b] c' /\
    forall (i j : nat) a b,
      (i < j)%nat -> c' !! i = Some a -> c' !! j = Some b ->
      exists x y,
        raw_Claim_MarshalBinary a = Ok x /\ raw_Claim_MarshalBinary b = Ok y /\
        lex_le x y.
Proof.
  apply (Sort_orders_binary_forms raw_TxID_MarshalBinary raw_Members_MarshalBinary
           (fun cmp l => insertion_sort cmp l) [claim_a; claim_b]).
  - exact insertion_sort_sorts.
  - repeat constructor; eexists; reflexivity.
Defined.

Lemma Claims_UnmarshalBinary_truncated_panics_witness :
  raw_Claims_UnmarshalBinary [] (of_bytes (MarshalUint16 2 ++ [18; 0; 0; 0]))
  = Panic.
Proof.
  apply (Claims_UnmarshalBinary_truncated_panics
           raw_TxID_MarshalBinary raw_TxID_UnmarshalBinary (replicate 16 0)
           raw_Members_MarshalBinary raw_Members_UnmarshalBinary [0] 1
           [] 2 [18; 0; 0; 0]).
  - lia.
  - simpl. lia.
Defined.

(** A batch of one claim whose size field is 0: the reader takes an
    empty body, which is too short to be a claim. *)
Lemma zero_size_field_reads_empty_claim (body : bytes) (c0 : list Claim) :
  raw_Claims_UnmarshalBinary c0
    (of_bytes (MarshalUint16 1 ++ MarshalUint32 0 ++ body))
  = Return ([mkClaim (Some (replicate 16 0)) (Some [0])], Some InvalidDataFormat).
Proof.
  unfold raw_Claims_UnmarshalBinary, Claims_UnmarshalBinary, of_bytes.
  pose proof (reslice_window [] (MarshalUint16 1) (MarshalUint32 0 ++ body)
                (length (MarshalUint16 1 ++ MarshalUint32 0 ++ body))) as Hcount.
  pose proof (reslice_window (MarshalUint16 1) (MarshalUint32 0) body
                (length (MarshalUint16 1 ++ MarshalUint32 0 ++ body))) as Hfield.
  pose proof (reslice_window (MarshalUint16 1 ++ MarshalUint32 0) [] body
                (length (MarshalUint16 1 ++ MarshalUint32 0 ++ body))) as Hbody.
  rewrite <- app_assoc in Hbody.
  change (reslice
            (mkSlice (MarshalUint16 1 ++ MarshalUint32 0 ++ body)
                     (length (MarshalUint16 1 ++ MarshalUint32 0 ++ body)))
            0 Uint16ByteSize
          = Return (mkSlice (MarshalUint16 1 ++ MarshalUint32 0 ++ body) 2))
    in Hcount.
  change (reslice
            (mkSlice (MarshalUint16 1 ++ MarshalUint32 0 ++ body)
                     (length (MarshalUint16 1 ++ MarshalUint32 0 ++ body)))
            Uint16ByteSize (to_uint32 (Uint16ByteSize + Uint32ByteSize))
          = Return (mkSlice (MarshalUint32 0 ++ body) 4))
    in Hfield.
  change (reslice
            (mkSlice (MarshalUint16 1 ++ MarshalUint32 0 ++ body)
                     (length (MarshalUint16 1 ++ MarshalUint32 0 ++ body)))
            (to_uint32 (Uint16ByteSize + Uint32ByteSize))
            (to_uint32 (to_uint32 (Uint16ByteSize + Uint32ByteSize) + 0))
          = Return (mkSlice body 0))
    in Hbody.
  rewrite Hcount. cbn [obind].
  change (UnmarshalUint16 (contents (mkSlice (MarshalUint16 1 ++ MarshalUint32 0 ++ body) 2)))
    with (@Ok Z 1).
  cbv iota.
  change (1 =? 0) with false. cbv iota.
  change (Z.to_nat 1) with 1%nat.
  cbn [read_sizes]. rewrite Hfield. cbn [obind].
  change (UnmarshalUint32 (contents (mkSlice (MarshalUint32 0 ++ body) 4)))
    with (@Ok Z 0).
  cbv iota. cbn [app obind]. cbv iota. cbn [read_claims].
  rewrite Hbody. cbn [obind].
  reflexivity.
Qed.

(** A claim whose members [m] bring its binary form to 2^32 bytes: its
    size field is written as 0, and the reader takes an empty body. *)
Lemma oversized_claim_size_field_wraps (m : bytes) :
  Z.of_nat (length m) = 2 ^ 32 - 16 ->
  well_formed raw_TxID_MarshalBinary raw_Members_MarshalBinary 1
              (mkClaim (Some (replicate 16 1)) (Some m)) /\
  raw_Claims_MarshalBinary [mkClaim (Some (replicate 16 1)) (Some m)]
  = Ok (MarshalUint16 1 ++ MarshalUint32 0 ++ replicate 16 1 ++ m) /\
  forall c0,
    raw_Claims_UnmarshalBinary c0
      (of_bytes (MarshalUint16 1 ++ MarshalUint32 0 ++ replicate 16 1 ++ m))
    = Return ([mkClaim (Some (replicate 16 0)) (Some [0])], Some InvalidDataFormat).
Proof.
  intros Hlen.
  destruct m as [|x m]; [simpl in Hlen; lia|].
  split; [|split].
  - exists (replicate 16 1), (x :: m), (replicate 16 1), (x :: m).
    repeat split. lia.
  - unfold raw_Claims_MarshalBinary, Claims_MarshalBinary.
    cbn [marshal_claims].
    assert (Hbin : Claim_MarshalBinary raw_TxID_MarshalBinary raw_Members_MarshalBinary
                     (mkClaim (Some (replicate 16 1)) (Some (x :: m)))
                   = Ok (replicate 16 1 ++ x :: m)).
    { unfold Claim_MarshalBinary, ChainByteSlices. cbn.
      rewrite app_nil_r. reflexivity. }
    rewrite Hbin.
    assert (Hsize : to_uint32 (Z.of_nat (length (replicate 16 1 ++ x :: m))) = 0).
    { rewrite length_app, Nat2Z.inj_add, Hlen. reflexivity. }
    rewrite Hsize.
    change (Nat.eqb (length (replicate 16 1 ++ x :: m)) 0) with false.
    cbv iota. unfold ChainByteSlices. cbn [concat app].
    rewrite app_nil_r. reflexivity.
  - intros c0. apply zero_size_field_reads_empty_claim.
Qed.

(** A claim of 2^32 bytes: a TxID and 2^32 - 16 bytes of members. *)
Definition oversized_members : bytes := replicate (Z.to_nat (2 ^ 32 - 16)) 9.

Definition oversized_claim : Claim :=
  mkClaim (Some (replicate 16 1)) (Some oversized_members).

(** C6, counterexample.  With member codecs that round-trip, a batch of
    one claim with a non-nil TxID and non-nil members, whose binary form
    takes 2^32 bytes: the batch marshals, the length of the claim is
    written as the uint32 0, and unmarshalling the bytes returns
    [InvalidDataFormat] and leaves an empty claim in place of the claim of
    the batch. *)
Lemma oversized_claim_does_not_round_trip :
  member_codecs_round_trip raw_TxID_MarshalBinary raw_TxID_UnmarshalBinary
                           raw_Members_MarshalBinary raw_Members_UnmarshalBinary /\
  well_formed raw_TxID_MarshalBinary raw_Members_MarshalBinary 1 oversized_claim /\
  Z.of_nat (length [oversized_claim]) <= ClaimsMaxCount /\
  exists data,
    raw_Claims_MarshalBinary [oversized_claim] = Ok data /\
    raw_Claims_UnmarshalBinary [] (of_bytes data)
    = Return ([mkClaim (Some (replicate 16 0)) (Some [0])], Some InvalidDataFormat) /\
    raw_Claims_UnmarshalBinary [] (of_bytes data)
    <> Return ([oversized_claim], None).
Proof.
  assert (Hlen : Z.of_nat (length oversized_members) = 2 ^ 32 - 16).
  { unfold oversized_members. rewrite length_replicate. apply Z2Nat.id. lia. }
  destruct (oversized_claim_size_field_wraps oversized_members Hlen)
    as (Hwf & Hmarshal & Hread).
  split; [exact raw_codecs_round_trip|].
  split; [exact Hwf|].
  split; [change (Z.of_nat 1 <= 1024 * 16); lia|].
  eexists. split; [exact Hmarshal|].
  split; [apply Hread|].
  rewrite Hread. discriminate.
Qed.

(** The sorted batch puts the claim with the smaller TxID first. *)
Example raw_Sort_example : raw_Sort [claim_a; claim_b] = Ok [claim_b; claim_a].
Proof. reflexivity. Qed.

(** Two claims that do not marshal, the first for its nil TxID, the second
    for its short TxID: the first comparison is [less(1, 0)], which
    marshals the claim at index 1 first, and its error is the one
    returned.  A single claim is never compared. *)
Example raw_Sort_error_of_first_comparison :
  raw_Claim_MarshalBinary (mkClaim None (Some [9])) = Err NilInternalDataStructure /\
  raw_Claim_MarshalBinary (mkClaim (Some [1]) (Some [9])) = Err InvalidDataFormat /\
  raw_Sort [mkClaim None (Some [9]); mkClaim (Some [1]) (Some [9])]
  = Err InvalidDataFormat /\
  raw_Sort [mkClaim None (Some [9])] = Ok [mkClaim None (Some [9])].
Proof. repeat split. Qed.

(** A truncated batch in a slice with spare capacity: the six bytes of the
    input declare two claims and hold one size field; the reader goes on
    into the spare capacity and returns two claims and no error. *)
Example raw_Claims_UnmarshalBinary_reads_spare_capacity :
  exists data,
    raw_Claims_MarshalBinary [claim_a; claim_b] = Ok data /\
    raw_Claims_UnmarshalBinary [] (mkSlice data 6)
    = Return ([claim_a; claim_b], None).
Proof. eexists. split; reflexivity. Qed.

Lemma Claim_UnmarshalBinary_safe_witness :
  (exists r, raw_Claim_UnmarshalBinary (of_bytes [1; 2; 3]) = Return r) /\
  (Z.of_nat (len (of_bytes [1; 2; 3])) < ClaimMinBinarySize 1 ->
   raw_Claim_UnmarshalBinary (of_bytes [1; 2; 3]) = Return (Err InvalidDataFormat)).
Proof.
  apply (Claim_UnmarshalBinary_safe raw_TxID_UnmarshalBinary
           raw_Members_UnmarshalBinary 1 (of_bytes [1; 2; 3])).
  - lia.
  - unfold cap. simpl. lia.
Defined.

Lemma Claim_MarshalBinary_injective_witness : claim_a = claim_a.
Proof.
  apply (Claim_MarshalBinary_injective raw_TxID_MarshalBinary raw_TxID_UnmarshalBinary
           raw_Members_MarshalBinary raw_Members_UnmarshalBinary 1 claim_a claim_a).
  - exact raw_codecs_round_trip.
  - exact raw_well_formed_a.
  - exact raw_well_formed_a.
  - reflexivity.
Defined.

(** A batch that declares two claims of five bytes each, too short to be
    claims. *)
Definition short_claims_batch : slice :=
  of_bytes (MarshalUint16 2 ++ MarshalUint32 5 ++ MarshalUint32 5
            ++ [1; 1; 1; 1; 1; 2; 2; 2; 2; 2]).

Lemma Claims_UnmarshalBinary_count_witness :
  raw_Claims_UnmarshalBinary [claim_a] short_claims_batch
  = Return ([mkClaim (Some (replicate 16 0)) (Some [0]);
             mkClaim (Some (replicate 16 0)) (Some [0])],
            Some InvalidDataFormat) /\
  length [mkClaim (Some (replicate 16 0)) (Some [0]);
          mkClaim (Some (replicate 16 0)) (Some [0])] = Z.to_nat 2.
Proof.
  split; [reflexivity|].
  apply (Claims_UnmarshalBinary_count raw_TxID_UnmarshalBinary (replicate 16 0)
           raw_Members_UnmarshalBinary [0] 1
           [claim_a]
           [mkClaim (Some (replicate 16 0)) (Some [0]);
            mkClaim (Some (replicate 16 0)) (Some [0])]
           short_claims_batch
           (mkSlice (backing short_claims_batch) 2)
           2 (Some InvalidDataFormat));
    reflexivity.
Defined.

End geo.

(** ** The map of connections to observers
       (core/network/communicator/observers/connections.go) *)

Module observers.

(** [ErrNoObserver] *)
Inductive conn_error : Set := ErrNoObserver.

(** A call that returns, or blocks for ever on a mutex that is held and
    that nobody is going to release. *)
Inductive run (A : Type) : Type :=
| Done (a : A)
| Blocked.
Arguments Done {A} a.
Arguments Blocked {A}.

(** The character ':' (code 58). *)
Definition colon : Ascii.ascii := Ascii.ascii_of_nat 58.

(** [strings.Split(addr, ":")[0]]: the text before the first colon, the
    whole text when there is none. *)
Fixpoint host_of (addr : String.string) : String.string :=
  match addr with
  | String.EmptyString => String.EmptyString
  | String.String c rest =>
      if Ascii.eqb c colon then String.EmptyString
      else String.String c (host_of rest)
  end.

Section ConnectionsMap.

(** Observers are compared as pointers; a connection is known by its
    handle, and [RemoteAddr] gives the text of its remote address. *)
Context {Observer : Type} `{Countable Observer}.
Context {Conn : Type} `{Countable Conn}.
Variable RemoteAddr : Conn -> String.string.

(** The buffered [Writer] of a wrapper is determined by its connection;
    every wrapper is referred to by one entry of the map only, the entry
    is modelled by the wrapper itself. *)
Record ConnectionWrapper : Type := mkWrapper {
  Connection : Conn;
  LastUsed : Time
}.

(** [mutex] tells whether the mutex is held. *)
Record ConnectionsMap : Type := mkMap {
  Connections : gmap Observer ConnectionWrapper;
  mutex : bool
}.

Definition NewConnectionsMap : ConnectionsMap := mkMap ∅ false.

(** [sync.Mutex] is not reentrant: [Lock] on a held mutex blocks. *)
Definition Lock (cm : ConnectionsMap) : run ConnectionsMap :=
  if mutex cm then Blocked else Done (mkMap (Connections cm) true).

Definition Unlock (cm : ConnectionsMap) : ConnectionsMap :=
  mkMap (Connections cm) false.

(** [Get]: the map, the wrapper and the error. *)
Definition Get (cm : ConnectionsMap) (observer : Observer) (now : Time)
    : run (ConnectionsMap * option ConnectionWrapper * option conn_error) :=
  match Lock cm with
  | Blocked => Blocked
  | Done cm =>
      match Connections cm !! observer with
      | None => Done (Unlock cm, None, Some ErrNoObserver)
      | Some w =>
          let w := mkWrapper (Connection w) now in
          Done (Unlock (mkMap (<[observer := w]> (Connections cm)) (mutex cm)),
                Some w, None)
      end
  end.

Definition Set_ (cm : ConnectionsMap) (observer : Observer) (conn : Conn)
    (now : Time) : run ConnectionsMap :=
  match Lock cm with
  | Blocked => Blocked
  | Done cm =>
      Done (Unlock (mkMap (<[observer := mkWrapper conn now]> (Connections cm))
                          (mutex cm)))
  end.

(** [DeleteByObserver]; [closed] is the set of connections closed so
    far.  The call of [cm.Get] is made with the mutex held. *)
Definition DeleteByObserver (cm : ConnectionsMap) (observer : Observer)
    (now : Time) (closed : gset Conn) : run (ConnectionsMap * gset Conn) :=
  match Lock cm with
  | Blocked => Blocked
  | Done cm =>
      match Get cm observer now with
      | Blocked => Blocked
      | Done (cm, _, Some _) => Done (Unlock cm, closed)
      | Done (cm, None, None) => Done (Unlock cm, closed)
      | Done (cm, Some conn, None) =>
          Done (Unlock (mkMap (delete observer (Connections cm)) (mutex cm)),
                closed ∪ {[Connection conn]})
      end
  end.

(** The first loop of [DeleteByRemoteHost] over the entries in the
    order [entries] in which the map hands them out. *)
Definition obsoleteRecords (host : String.string)
    (entries : list (Observer * ConnectionWrapper)) : list (Observer * Conn) :=
  foldr (fun '(k, v) acc =>
           let currentHost := host_of (RemoteAddr (Connection v)) in
           if String.eqb currentHost host then (k, Connection v) :: acc else acc)
        [] entries.

Definition DeleteByRemoteHost (cm : ConnectionsMap) (host : String.string)
    (closed : gset Conn) : run (ConnectionsMap * gset Conn) :=
  match Lock cm with
  | Blocked => Blocked
  | Done cm =>
      let obsolete := obsoleteRecords host (map_to_list (Connections cm)) in
      let '(connections, closed) :=
        fold_left (fun '(m, c) '(observer, conn) =>
                     (delete observer m, c ∪ {[conn]}))
                  obsolete (Connections cm, closed) in
      Done (Unlock (mkMap connections (mutex cm)), closed)
  end.

(** *** Properties *)

(** X21.  On a free mutex, [Get] of an observer without connection
    returns [ErrNoObserver] and leaves the map as it is; [Get] of an
    observer with a connection returns its wrapper, with the same
    connection and the time of the call as time of last use, and records
    that time in the map without touching any other entry. *)
Theorem Get_spec (cm : ConnectionsMap) (observer : Observer) (now : Time) :
  mutex cm = false ->
  match Connections cm !! observer with
  | None => Get cm observer now = Done (cm, None, Some ErrNoObserver)
  | Some w =>
      exists cm',
        Get cm observer now = Done (cm', Some (mkWrapper (Connection w) now), None) /\
        mutex cm' = false /\
        Connections cm' !! observer = Some (mkWrapper (Connection w) now) /\
        forall other, other <> observer ->
          Connections cm' !! other = Connections cm !! other
  end.
Proof.
  intros Hfree. unfold Get, Lock. rewrite Hfree. simpl.
  destruct (Connections cm !! observer) as [w|] eqn:Hw.
  - eexists. split; [reflexivity|]. simpl. split; [reflexivity|].
    split; [apply lookup_insert_eq|].
    intros other Hne. apply lookup_insert_ne. congruence.
  - destruct cm as [m l]. simpl in *. subst l. reflexivity.
Qed.

(** X22.  After [Set] of a connection for an observer, [Get] of that
    observer returns that connection, whatever was stored for it before;
    the entries of the other observers are as before. *)
Theorem Set_then_Get
    (cm : ConnectionsMap) (observer : Observer) (conn : Conn) (now now' : Time) :
  mutex cm = false ->
  exists cm1 cm2,
    Set_ cm observer conn now = Done cm1 /\
    Get cm1 observer now' = Done (cm2, Some (mkWrapper conn now'), None) /\
    forall other, other <> observer ->
      Connections cm1 !! other = Connections cm !! other.
Proof.
  intros Hfree. unfold Set_, Get, Lock. rewrite Hfree. simpl.
  eexists _, _. split; [reflexivity|]. simpl.
  rewrite lookup_insert_eq. split; [reflexivity|].
  intros other Hne. apply lookup_insert_ne. congruence.
Qed.

(** X23.  [DeleteByObserver] takes the mutex and then calls [Get],
    which waits for the same mutex: the call never returns, nothing is
    deleted and no connection is closed. *)
Theorem DeleteByObserver_blocks
    (cm : ConnectionsMap) (observer : Observer) (now : Time) (closed : gset Conn) :
  DeleteByObserver cm observer now closed = Blocked.
Proof.
  unfold DeleteByObserver, Get, Lock. destruct (mutex cm); reflexivity.
Qed.

Lemma obsoleteRecords_elem (host : String.string)
    (entries : list (Observer * ConnectionWrapper)) (k : Observer) (c : Conn) :
  (k, c) ∈ obsoleteRecords host entries <->
  exists w, (k, w) ∈ entries /\ Connection w = c /\
            host_of (RemoteAddr c) = host.
Proof.
  induction entries as [|[k0 w0] entries IH]; simpl.
  - split; [intros Hin; inversion Hin|intros (w & Hin & _); inversion Hin].
  - destruct (String.eqb (host_of (RemoteAddr (Connection w0))) host) eqn:Hh.
    + apply String.eqb_eq in Hh. rewrite elem_of_cons, IH. split.
      * intros [[= -> ->]|(w & Hin & Hc & Hhost)].
        -- exists w0. rewrite elem_of_cons. auto.
        -- exists w. rewrite elem_of_cons. auto.
      * intros (w & Hin & Hc & Hhost). apply elem_of_cons in Hin as [[= -> ->]|Hin].
        -- left. congruence.
        -- right. eauto.
    + apply String.eqb_neq in Hh. rewrite IH. split.
      * intros (w & Hin & Hc & Hhost). exists w. rewrite elem_of_cons. auto.
      * intros (w & Hin & Hc & Hhost). apply elem_of_cons in Hin as [[= -> ->]|Hin].
        -- congruence.
        -- eauto.
Qed.

Lemma delete_all_spec (obsolete : list (Observer * Conn))
    (m : gmap Observer ConnectionWrapper) (c : gset Conn) :
  let r := fold_left (fun '(m, c) '(observer, conn) =>
                        (delete observer m, c ∪ {[conn]}))
                     obsolete (m, c) in
  (forall k, r.1 !! k = if decide (k ∈ obsolete.*1) then None else m !! k) /\
  (forall x, x ∈ r.2 <-> x ∈ c \/ x ∈ obsolete.*2).
Proof.
  cbv zeta. revert m c.
  induction obsolete as [|[k0 c0] obsolete IH]; intros m c.
  - cbn [fold_left fst snd]. split.
    + intros k. destruct (decide (k ∈ ([] : list (Observer * Conn)).*1)) as [Hin|_];
        [inversion Hin|reflexivity].
    + intros x. split; [auto|]. intros [Hx|Hx]; [exact Hx|]. inversion Hx.
  - cbn [fold_left].
    destruct (IH (delete k0 m) (c ∪ {[c0]})) as [IHm IHc]. split.
    + intros k. rewrite IHm, fmap_cons. cbn [fst].
      destruct (decide (k ∈ obsolete.*1)) as [Hin|Hnin].
      * rewrite decide_True; [reflexivity|]. apply elem_of_cons. auto.
      * destruct (decide (k = k0)) as [->|Hne].
        -- rewrite decide_True by (apply elem_of_cons; auto).
           apply lookup_delete_eq.
        -- rewrite decide_False.
           ++ apply lookup_delete_ne. congruence.
           ++ rewrite elem_of_cons. intros [?|?]; contradiction.
    + intros x. rewrite IHc, fmap_cons, elem_of_union, elem_of_singleton,
        elem_of_cons. cbn [snd]. tauto.
Qed.

(** X24.  On a free mutex, [DeleteByRemoteHost] returns with the mutex
    free again; it removes exactly the entries whose connection has the
    given host before the first colon of its remote address, keeps every
    other entry as it is, and closes exactly the connections of the
    entries it removes. *)
Theorem DeleteByRemoteHost_spec
    (cm : ConnectionsMap) (host : String.string) (closed : gset Conn) :
  mutex cm = false ->
  exists cm' closed',
    DeleteByRemoteHost cm host closed = Done (cm', closed') /\
    mutex cm' = false /\
    (forall k,
       Connections cm' !! k =
         match Connections cm !! k with
         | Some w =>
             if String.eqb (host_of (RemoteAddr (Connection w))) host
             then None else Some w
         | None => None
         end) /\
    (forall c,
       c ∈ closed' <->
       c ∈ closed \/
       exists k w, Connections cm !! k = Some w /\ Connection w = c /\
                   host_of (RemoteAddr c) = host).
Proof.
  intros Hfree. unfold DeleteByRemoteHost, Lock. rewrite Hfree. simpl.
  set (obsolete := obsoleteRecords host (map_to_list (Connections cm))).
  pose proof (delete_all_spec obsolete (Connections cm) closed) as Hspec.
  cbv zeta in Hspec.
  destruct (fold_left _ obsolete (Connections cm, closed)) as [m' c'] eqn:Hfold.
  destruct Hspec as [Hm Hc]. cbn [fst snd] in Hm, Hc.
  eexists _, _. split; [reflexivity|]. simpl. split; [reflexivity|]. split.
  - intros k. rewrite Hm.
    destruct (decide (k ∈ obsolete.*1)) as [Hin|Hnin].
    + apply list_elem_of_fmap in Hin as ([k' c] & -> & Hin). simpl.
      apply obsoleteRecords_elem in Hin as (w & Hin & Hcw & Hhost).
      apply elem_of_map_to_list in Hin. rewrite Hin, Hcw.
      apply String.eqb_eq in Hhost. rewrite Hhost. reflexivity.
    + destruct (Connections cm !! k) as [w|] eqn:Hk; [|reflexivity].
      destruct (String.eqb (host_of (RemoteAddr (Connection w))) host) eqn:Hh;
        [|reflexivity].
      exfalso. apply Hnin. apply String.eqb_eq in Hh.
      apply list_elem_of_fmap. exists (k, Connection w). split; [reflexivity|].
      apply obsoleteRecords_elem. exists w. split; [|auto].
      apply elem_of_map_to_list. exact Hk.
  - intros c. rewrite Hc. split.
    + intros [Hin|Hin]; [auto|]. right.
      apply list_elem_of_fmap in Hin as ([k c0] & -> & Hin). simpl.
      apply obsoleteRecords_elem in Hin as (w & Hin & Hcw & Hhost).
      apply elem_of_map_to_list in Hin. eauto.
    + intros [Hin|(k & w & Hk & Hcw & Hhost)]; [auto|]. right.
      apply list_elem_of_fmap. exists (k, c). split; [reflexivity|].
      apply obsoleteRecords_elem. exists w. split; [|auto].
      apply elem_of_map_to_list. exact Hk.
Qed.

End ConnectionsMap.

(** *** A concrete map: observers and connections are numbered *)

Definition text (codes : list Z) : String.string :=
  String.string_of_list_ascii
    (map (fun c => Ascii.ascii_of_nat (Z.to_nat c)) codes).

(** Connection 1 comes from "h1:80", every other one from "h2:80". *)
Definition numbered_RemoteAddr (conn : positive) : String.string :=
  match conn with
  | 1%positive => text [104; 49; 58; 56; 48]
  | _ => text [104; 50; 58; 56; 48]
  end.

Definition two_connections : ConnectionsMap (Observer := positive) (Conn := positive) :=
  mkMap (<[1%positive := mkWrapper 1%positive zeroTime]>
           (<[2%positive := mkWrapper 2%positive zeroTime]> ∅))
        false.

Lemma Get_spec_witness :
  match Connections two_connections !! 1%positive with
  | None => Get two_connections 1%positive (mkTime 5 0)
            = Done (two_connections, None, Some ErrNoObserver)
  | Some w =>
      exists cm',
        Get two_connections 1%positive (mkTime 5 0)
        = Done (cm', Some (mkWrapper (Connection w) (mkTime 5 0)), None) /\
        mutex cm' = false /\
        Connections cm' !! 1%positive
        = Some (mkWrapper (Connection w) (mkTime 5 0)) /\
        forall other, other <> 1%positive ->
          Connections cm' !! other = Connections two_connections !! other
  end.
Proof.
  apply (Get_spec two_connections 1%positive (mkTime 5 0)). reflexivity.
Defined.

Lemma Set_then_Get_witness :
  exists cm1 cm2,
    Set_ two_connections 1%positive 3%positive (mkTime 5 0) = Done cm1 /\
    Get cm1 1%positive (mkTime 6 0)
    = Done (cm2, Some (mkWrapper 3%positive (mkTime 6 0)), None) /\
    forall other, other <> 1%positive ->
      Connections cm1 !! other = Connections two_connections !! other.
Proof.
  apply (Set_then_Get two_connections 1%positive 3%positive (mkTime 5 0) (mkTime 6 0)).
  reflexivity.
Defined.

Lemma DeleteByRemoteHost_spec_witness :
  exists cm' closed',
    DeleteByRemoteHost numbered_RemoteAddr two_connections (text [104; 49]) ∅
    = Done (cm', closed') /\
    mutex cm' = false /\
    (forall k,
       Connections cm' !! k =
         match Connections two_connections !! k with
         | Some w =>
             if String.eqb (host_of (numbered_RemoteAddr (Connection w)))
                           (text [104; 49])
             then None else Some w
         | None => None
         end) /\
    (forall c,
       c ∈ closed' <->
       c ∈ (∅ : gset positive) \/
       exists k w, Connections two_connections !! k = Some w /\
                   Connection w = c /\
                   host_of (numbered_RemoteAddr c) = text [104; 49]).
Proof.
  apply (DeleteByRemoteHost_spec numbered_RemoteAddr two_connections
           (text [104; 49]) ∅).
  reflexivity.
Defined.

(** The connection from "h1" goes and is closed, the other one stays. *)
Example DeleteByRemoteHost_example :
  DeleteByRemoteHost numbered_RemoteAddr two_connections (text [104; 49]) ∅
  = Done (mkMap (<[2%positive := mkWrapper 2%positive zeroTime]> ∅) false,
          {[1%positive]}).
Proof. vm_compute. reflexivity. Qed.

End observers.
